(** * The executor's job handler (enterprise/cmd/executor/internal/worker/handler.go)

    A shallow embedding of [PreDequeue], [Handle] and their helpers, with the
    collaborators the handler calls into (the command runner, the file system,
    the VM listing, the UUID source) kept as oracles of a [World], and every
    call the handler makes recorded in a chronological trace of events.

    The first part holds the definitions: the data of the handler, the
    embedding of its code, and the vocabulary in which its runs are described.
    The second part holds the lemmas and the theorems about them. *)

From Stdlib Require Import ZArith String Ascii List DecimalString DecimalZ DecimalPos.
From stdpp Require Import gmap strings list sorting fin_maps.

Set Default Proof Using "Type".
Set Warnings "-register-all,-clear-no-such-hyp".

(** * Definitions *)

(** ** Errors *)

(** Go [error] values as far as the handler builds and inspects them.
    [DeadlineExceeded] is the sentinel [context.DeadlineExceeded]; [New] is any
    other leaf error, known by its message; [Errorf] is the leaf made by
    [errors.Errorf]; [Wrap] is [errors.Wrap(cause, msg)]; [MultiError] is
    go-multierror's [*multierror.Error] with its [Errors] slice. *)
Inductive error : Type :=
| DeadlineExceeded
| New (msg : string)
| Errorf (msg : string)
| Wrap (cause : error) (msg : string)
| MultiError (errs : list error).

(** [errors.Is(err, context.DeadlineExceeded)]: follows the chain of causes;
    a multierror matches when one of its members does. *)
Fixpoint errors_Is_DeadlineExceeded (err : error) : bool :=
  match err with
  | DeadlineExceeded => true
  | New _ => false
  | Errorf _ => false
  | Wrap cause _ => errors_Is_DeadlineExceeded cause
  | MultiError errs => existsb errors_Is_DeadlineExceeded errs
  end.

(** The members [multierror.Append] takes from one argument: a multierror is
    flattened, any other error counts as itself. *)
Definition multierror_Errors (e : error) : list error :=
  match e with
  | MultiError errs => errs
  | _ => [e]
  end.

(** [multierror.Append(err, e)] where [err] may be nil and [e] is not. *)
Definition multierror_Append (err : option error) (e : error) : error :=
  MultiError (from_option multierror_Errors [] err ++ multierror_Errors e).

(** ** Results, contexts, durations, log records *)

(** A Go [(T, error)] result. *)
Inductive result (T : Type) : Type :=
| Ok (v : T)
| Err (e : error).
Arguments Ok {T} v.
Arguments Err {T} e.

Definition Duration := Z.

Inductive Context : Type :=
| Background
| Incoming
| WithDeadline (parent : Context) (timeout : Duration).

(** Whether a deadline was attached somewhere along the context's ancestry. *)
Definition deadline_bound (c : Context) : bool :=
  match c with
  | Background => false
  | Incoming => false
  | WithDeadline _ _ => true
  end.

Inductive LogLevel : Type := LvlInfo | LvlWarn.

Inductive LogValue : Type :=
| LogInt (z : Z)
| LogString (s : string).

Record LogRecord : Type := mkLog {
  Lvl : LogLevel;
  Msg : string;
  Ctx : list (string * LogValue)
}.

(** ** The records of package executor, and the options *)

Record DockerStep : Type := mkDockerStep {
  Image : string;
  Commands : list string;
  Dir : string;
  Env : list string
}.

Record CliStep : Type := mkCliStep {
  CliCommands : list string;
  CliDir : string;
  CliEnv : list string
}.

Record Job : Type := mkJob {
  ID : Z;
  RepositoryName : string;
  Commit : string;
  VirtualMachineFiles : gmap string string;
  DockerSteps : list DockerStep;
  CliSteps : list CliStep;
  RedactedValues : gmap string string
}.

Record FirecrackerOptions : Type := mkFirecrackerOptions {
  Enabled : bool;
  FirecrackerImage : string
}.

Record ResourceOptions : Type := mkResourceOptions {
  NumCPUs : Z;
  Memory : string;
  DiskSpace : string
}.

Record WorkerOptions : Type := mkWorkerOptions {
  NumHandlers : Z
}.

(** The handler's [Options]. *)
Record Options : Type := mkOptions {
  VMPrefix : string;
  OptFirecrackerOptions : FirecrackerOptions;
  OptResourceOptions : ResourceOptions;
  OptWorkerOptions : WorkerOptions;
  MaximumRuntimePerJob : Duration;
  OptRedactedValues : gmap string string
}.

(** [command.Options], what a runner is created with. *)
Record CommandOptions : Type := mkCommandOptions {
  ExecutorName : string;
  CmdFirecrackerOptions : FirecrackerOptions;
  CmdResourceOptions : ResourceOptions
}.

Definition zeroFirecrackerOptions : FirecrackerOptions := mkFirecrackerOptions false "".
Definition zeroResourceOptions : ResourceOptions := mkResourceOptions 0%Z "" "".
(** [command.Options{}] *)
Definition zeroCommandOptions : CommandOptions :=
  mkCommandOptions "" zeroFirecrackerOptions zeroResourceOptions.

Inductive Operation : Type := operations_Exec.

(** [command.CommandSpec] *)
Record CommandSpec : Type := mkCommandSpec {
  Key : string;
  SpecImage : string;
  ScriptPath : string;
  Command : list string;
  SpecDir : string;
  SpecEnv : list string;
  SpecOperation : Operation
}.

(** ** Events and the world *)

(** [uuid.UUID], used by the handler only through its [String] form. *)
Record UUID : Type := mkUUID { UUID_String : string }.

(** One entry per call that leaves the handler, in the order the calls are
    made, each with the arguments passed and the result that came back. *)
Inductive event : Type :=
| EvLog (r : LogRecord)
| EvNewLogger (redacted : gmap string string)
| EvLoggerFlush
| EvRunnerFactory (dir : string) (options : CommandOptions)
| EvPrepareWorkspace (c : Context) (repositoryName commit : string) (r : result string)
| EvRemoveAll (dir : string)
| EvWriteFile (path content : string) (r : option error)
| EvNewRandom (r : result UUID)
| EvNameSetAdd (name : string)
| EvNameSetRemove (name : string)
| EvSetup (c : Context) (imageNames : list string) (r : option error)
| EvRun (c : Context) (spec : CommandSpec) (r : option error)
| EvTeardown (c : Context) (r : option error)
| EvHoneySend (c : Context) (job : Job) (err : option error)
| EvCancel.

Definition trace := list event.

(** Everything outside handler.go that the handler depends on. The effectful
    collaborators answer as a function of the calls made so far. [rangeMap] and
    [rangeSet] are the orders in which a Go [range] loop visits a map's
    entries; [ScriptsPath] is the constant [command.ScriptsPath];
    [Duration_String] is [time.Duration]'s [String] method. *)
Record World : Type := mkWorld {
  rangeMap : gmap string string → list (string * string);
  rangeSet : gset string → list string;
  ScriptsPath : string;
  Duration_String : Duration → string;
  honey_Enabled : bool;
  os_Getwd : trace → result string;
  os_WriteFile : trace → string → string → option error;
  uuid_NewRandom : trace → result UUID;
  ignite_CurrentlyRunningVMs : Context → string → result (list string);
  prepareWorkspace : trace → Context → string → string → result string;
  runner_Setup : trace → Context → list string → option error;
  runner_Run : trace → Context → CommandSpec → option error;
  runner_Teardown : trace → Context → option error
}.

(** A [range] loop visits every entry of the map exactly once. *)
Record WorldOK (w : World) : Prop := mkWorldOK {
  rangeMap_perm : ∀ m, rangeMap w m ≡ₚ map_to_list m;
  rangeSet_perm : ∀ s, rangeSet w s ≡ₚ elements s
}.

(** ** PreDequeue *)

Record PreDequeueResult : Type := mkPreDequeueResult {
  dequeueable : bool;
  extraDequeueArguments : option unit;
  err : option error
}.

Definition orphanWarning (numCurrentVMs numHandlers : Z) : LogRecord :=
  mkLog LvlWarn
    "Orphaned VMs detected - refusing to dequeue a new job until it's cleaned up"
    [("numCurrentVMs", LogInt numCurrentVMs); ("numHandlers", LogInt numHandlers)].

(** Returns the three results together with the log records emitted. *)
Definition PreDequeue (w : World) (options : Options) (ctx : Context)
  : PreDequeueResult * list LogRecord :=
  if negb (Enabled (OptFirecrackerOptions options)) then
    (mkPreDequeueResult true None None, [])
  else
    match ignite_CurrentlyRunningVMs w Background (VMPrefix options) with
    | Err e => (mkPreDequeueResult false None (Some e), [])
    | Ok currentVMs =>
      let n := Z.of_nat (length currentVMs) in
      if (n <? NumHandlers (OptWorkerOptions options))%Z then
        (mkPreDequeueResult true None None, [])
      else
        (mkPreDequeueResult false None None,
         [orphanWarning n (NumHandlers (OptWorkerOptions options))])
    end.

(** ** Strings, formatting and paths *)

(** [strings.HasPrefix(s, prefix)] *)
Definition strings_HasPrefix (s prefix : string) : bool := String.prefix prefix s.

(** [strings.Join(elems, sep)] *)
Definition strings_Join (elems : list string) (sep : string) : string :=
  String.concat sep elems.

(** [strings.ReplaceAll(s, old, new)] for a one-byte [old]. *)
Fixpoint strings_ReplaceAll (s : string) (old : ascii) (new : string) : string :=
  match s with
  | EmptyString => EmptyString
  | String c s' =>
    if Ascii.eqb c old then new +:+ strings_ReplaceAll s' old new
    else String c (strings_ReplaceAll s' old new)
  end.

(** The verb [%d] of [fmt.Sprintf]: decimal digits, with a leading minus sign
    on negative numbers. *)
Definition fmt_d (z : Z) : string := NilZero.string_of_int (Z.to_int z).

Definition is_separator (c : ascii) : bool := Ascii.eqb c "/".

(** The elements of a path between its separators, [strings.Split(path, "/")]. *)
Fixpoint path_elements (path : string) : list string :=
  match path with
  | EmptyString => [EmptyString]
  | String c rest =>
    if is_separator c then EmptyString :: path_elements rest
    else match path_elements rest with
         | [] => [String c EmptyString]
         | e :: es => String c e :: es
         end
  end.

(** One turn of the loop of [filepath.Clean], which always starts at the
    beginning of a path element: [out] holds the elements kept so far, last
    one first. An empty element and [.] are skipped; [..] removes the last
    element where there is one to remove, is dropped at the root, and is kept
    in front of a relative path; any other element is kept. *)
Definition clean_element (rooted : bool) (out : list string) (elem : string)
  : list string :=
  if decide (elem = "") then out
  else if decide (elem = ".") then out
  else if decide (elem = "..") then
    match out with
    | last :: out' =>
      if decide (last = "..") then (if rooted then out else elem :: out)
      else out'
    | [] => if rooted then out else [elem]
    end
  else elem :: out.

(** [filepath.Clean] on a Unix path. *)
Definition filepath_Clean (path : string) : string :=
  if decide (path = "") then "."
  else
    let rooted := strings_HasPrefix path "/" in
    let out := rev (foldl (clean_element rooted) [] (path_elements path)) in
    if rooted then "/" +:+ strings_Join out "/"
    else if decide (out = []) then "."
    else strings_Join out "/".

(** [filepath.Join]: the elements from the first non-empty one on, joined by
    the separator and cleaned; the empty string when all are empty. *)
Fixpoint filepath_Join (elem : list string) : string :=
  match elem with
  | [] => ""
  | e :: rest =>
    if decide (e = "") then filepath_Join rest
    else filepath_Clean (strings_Join elem "/")
  end.

Definition filepath_IsAbs (path : string) : bool := strings_HasPrefix path "/".

(** [filepath.Abs], given what [os.Getwd] answers. *)
Definition filepath_Abs (getwd : result string) (path : string) : result string :=
  if filepath_IsAbs path then Ok (filepath_Clean path)
  else match getwd with
       | Err e => Err e
       | Ok wd => Ok (filepath_Join [wd; path])
       end.

(** [sort.Strings]: ascending in Go's order on strings, which compares byte
    by byte. *)
Definition sort_Strings (l : list string) : list string := merge_sort String.le l.

(** ** Helpers of handler.go *)

(** The line feed, written [\n] in Go. *)
Definition newline : string := String "010" "".

Definition scriptPreamble : string := newline +:+ "set -x" +:+ newline.

Definition buildScript (dockerStep : DockerStep) : string :=
  strings_Join ([scriptPreamble; ""] ++ Commands dockerStep) newline +:+ newline.

Definition union (w : World) (a b : gmap string string) : gmap string string :=
  let c : gmap string string := ∅ in
  let c := foldl (λ c kv, <[kv.1 := kv.2]> c) c (rangeMap w a) in
  let c := foldl (λ c kv, <[kv.1 := kv.2]> c) c (rangeMap w b) in
  c.

Definition scriptNameFromJobStep (job : Job) (i : Z) : string :=
  fmt_d (ID job) +:+ "." +:+ fmt_d i +:+ "_"
  +:+ strings_ReplaceAll (RepositoryName job) "/" "_"
  +:+ "@" +:+ Commit job +:+ ".sh".

(** The values put into the fields of a telemetry event. *)
Inductive FieldValue : Type :=
| FieldInt (z : Z)
| FieldString (s : string).

(** [time.Duration.Milliseconds]: the whole milliseconds of a duration in
    nanoseconds, Go's integer division rounding toward zero. *)
Definition Duration_Milliseconds (d : Duration) : Z := Z.quot d 1000000.

(** The dataset and the fields of the event [createHoneyEvent] builds. What
    the [Error] method of an error prints and [executor.Job.RecordID] are
    taken as given. *)
Definition createHoneyEvent (Error : error → string) (RecordID : Job → Z)
    (job : Job) (err : option error) (duration : Duration)
  : string * gmap string FieldValue :=
  let fields : gmap string FieldValue :=
    {[ "duration_ms" := FieldInt (Duration_Milliseconds duration);
       "recordID" := FieldInt (RecordID job);
       "repositoryName" := FieldString (RepositoryName job);
       "commit" := FieldString (Commit job);
       "numDockerSteps" := FieldInt (Z.of_nat (length (DockerSteps job)));
       "numCliSteps" := FieldInt (Z.of_nat (length (CliSteps job))) ]} in
  let fields :=
    match err with
    | Some e => <["error" := FieldString (Error e)]> fields
    | None => fields
    end in
  ("executor", fields).

(** ** The control flow of Handle: early return and deferred calls *)

(** What a [defer] statement of [Handle] registers. *)
Inductive deferred : Type :=
| DeferCancel
| DeferHoneyEvent
| DeferLoggerFlush
| DeferRemoveAll (workingDirectory : string)
| DeferNameSetRemove (name : string)
| DeferTeardown.

(** The state of one activation of [Handle]: the calls made so far and the
    stack of deferred calls, the most recently registered on top. *)
Record frame : Type := mkFrame {
  calls : trace;
  deferreds : list deferred
}.

(** A statement either falls through with a value or executes [return]. *)
Inductive flow (A : Type) : Type :=
| Next (a : A)
| Return (err : option error).
Arguments Next {A} a.
Arguments Return {A} err.

Definition M (A : Type) : Type := frame → flow A * frame.

Definition pure {A} (a : A) : M A := λ s, (Next a, s).

Definition bind {A B} (m : M A) (k : A → M B) : M B :=
  λ s, match m s with
       | (Next a, s') => k a s'
       | (Return e, s') => (Return e, s')
       end.

Notation "x <~ m ;; k" := (bind m (λ x, k))
  (at level 100, m at next level, right associativity).
Notation "m ;;; k" := (bind m (λ _, k))
  (at level 100, right associativity).

Definition return_ {A} (e : option error) : M A := λ s, (Return e, s).

Definition defer (d : deferred) : M unit :=
  λ s, (Next tt, mkFrame (calls s) (d :: deferreds s)).

(** A call whose result does not matter to the handler. *)
Definition emit (ev : event) : M unit :=
  λ s, (Next tt, mkFrame (calls s ++ [ev]) (deferreds s)).

(** A call to a collaborator: it answers from the calls made so far, and the
    call is recorded with its answer. *)
Definition call {A} (ask : trace → A) (ev : A → event) : M A :=
  λ s, let r := ask (calls s) in (Next r, mkFrame (calls s ++ [ev r]) (deferreds s)).

(** A question to the world that leaves no record. *)
Definition peek {A} (ask : trace → A) : M A :=
  λ s, (Next (ask (calls s)), s).

(** [for i, x := range l { body }], counting from [i]; [acc] is what the
    loop body updates from one turn to the next. *)
Fixpoint forRange {A B} (body : nat → A → B → M B) (i : nat) (l : list A) (acc : B)
  : M B :=
  match l with
  | [] => pure acc
  | x :: l' => acc' <~ body i x acc ;; forRange body (S i) l' acc'
  end.

(** ** Handle *)

Section Handle.
Context (w : World) (options : Options).

Definition wrapError (err : error) (message : string) : error :=
  let err :=
    if errors_Is_DeadlineExceeded err then
      Errorf ("job exceeded maximum execution time of "
              +:+ Duration_String w (MaximumRuntimePerJob options))
    else err in
  Wrap err message.

Definition jobInfo (msg : string) (job : Job) : event :=
  EvLog (mkLog LvlInfo msg
           [("jobID", LogInt (ID job));
            ("repositoryName", LogString (RepositoryName job));
            ("commit", LogString (Commit job))]).

(** Body of the loop over [job.VirtualMachineFiles]. *)
Definition writeVirtualMachineFile (workingDirectory : string)
    (_ : nat) (file : string * string) (_ : unit) : M unit :=
  let '(relativePath, content) := file in
  r <~ peek (λ t, filepath_Abs (os_Getwd w t)
                    (filepath_Join [workingDirectory; relativePath])) ;;
  match r with
  | Err e => return_ (Some e)
  | Ok path =>
    if negb (strings_HasPrefix path workingDirectory) then
      return_ (Some (Errorf "refusing to write outside of working directory"))
    else
      r <~ call (λ t, os_WriteFile w t path content) (EvWriteFile path content) ;;
      match r with
      | Some e => return_ (Some e)
      | None => pure tt
      end
  end.

(** The image names handed to [Setup]: deduplicated through a map, then
    sorted. *)
Definition imageNames (job : Job) : list string :=
  let imageMap : gset string :=
    foldl (λ m dockerStep, {[Image dockerStep]} ∪ m) ∅ (DockerSteps job) in
  let imageNames := foldl (λ names image, names ++ [image]) [] (rangeSet w imageMap) in
  sort_Strings imageNames.

(** Body of the loop writing one script per docker step. *)
Definition writeScript (job : Job) (workingDirectory : string)
    (i : nat) (dockerStep : DockerStep) (scriptNames : list string)
  : M (list string) :=
  let scriptName := scriptNameFromJobStep job (Z.of_nat i) in
  let scriptPath := filepath_Join [workingDirectory; ScriptsPath w; scriptName] in
  r <~ call (λ t, os_WriteFile w t scriptPath (buildScript dockerStep))
            (EvWriteFile scriptPath (buildScript dockerStep)) ;;
  match r with
  | Some e => return_ (Some e)
  | None => pure (scriptNames ++ [scriptName])
  end.

Definition dockerStepCommand (scriptNames : list string) (i : nat)
    (dockerStep : DockerStep) : CommandSpec :=
  {| Key := "step.docker." +:+ fmt_d (Z.of_nat i);
     SpecImage := Image dockerStep;
     ScriptPath := default "" (scriptNames !! i);
     Command := [];
     SpecDir := Dir dockerStep;
     SpecEnv := Env dockerStep;
     SpecOperation := operations_Exec |}.

Definition cliStepCommand (i : nat) (cliStep : CliStep) : CommandSpec :=
  {| Key := "step.src." +:+ fmt_d (Z.of_nat i);
     SpecImage := "";
     ScriptPath := "";
     Command := "src" :: CliCommands cliStep;
     SpecDir := CliDir cliStep;
     SpecEnv := CliEnv cliStep;
     SpecOperation := operations_Exec |}.

(** Body of the loop over the docker steps. *)
Definition runDockerStep (job : Job) (ctx : Context) (scriptNames : list string)
    (i : nat) (dockerStep : DockerStep) (_ : unit) : M unit :=
  let spec := dockerStepCommand scriptNames i dockerStep in
  emit (jobInfo ("Running docker step #" +:+ fmt_d (Z.of_nat i)) job) ;;;
  r <~ call (λ t, runner_Run w t ctx spec) (EvRun ctx spec) ;;
  match r with
  | Some e => return_ (Some (wrapError e "failed to perform docker step"))
  | None => pure tt
  end.

(** Body of the loop over the src-cli steps. *)
Definition runCliStep (job : Job) (ctx : Context)
    (i : nat) (cliStep : CliStep) (_ : unit) : M unit :=
  emit (jobInfo ("Running src-cli step #" +:+ fmt_d (Z.of_nat i)) job) ;;;
  let spec := cliStepCommand i cliStep in
  r <~ call (λ t, runner_Run w t ctx spec) (EvRun ctx spec) ;;
  match r with
  | Some e => return_ (Some (wrapError e "failed to perform src-cli step"))
  | None => pure tt
  end.

(** The statements of [Handle] from the first to a [return]. *)
Definition handleBody (ctx : Context) (job : Job) : M unit :=
  defer DeferCancel ;;;
  defer DeferHoneyEvent ;;;
  emit (EvNewLogger (union w (OptRedactedValues options) (RedactedValues job))) ;;;
  defer DeferLoggerFlush ;;;
  emit (jobInfo "Creating workspace" job) ;;;
  emit (EvRunnerFactory "" zeroCommandOptions) ;;;
  r <~ call (λ t, prepareWorkspace w t ctx (RepositoryName job) (Commit job))
            (EvPrepareWorkspace ctx (RepositoryName job) (Commit job)) ;;
  match r with
  | Err e => return_ (Some (wrapError e "failed to prepare workspace"))
  | Ok workingDirectory =>
    defer (DeferRemoveAll workingDirectory) ;;;
    forRange (writeVirtualMachineFile workingDirectory) 0
             (rangeMap w (VirtualMachineFiles job)) tt ;;;
    r <~ call (uuid_NewRandom w) EvNewRandom ;;
    match r with
    | Err e => return_ (Some e)
    | Ok vmNameSuffix =>
      let name := VMPrefix options +:+ "-" +:+ UUID_String vmNameSuffix in
      emit (EvNameSetAdd name) ;;;
      defer (DeferNameSetRemove name) ;;;
      let runnerOptions :=
        {| ExecutorName := name;
           CmdFirecrackerOptions := OptFirecrackerOptions options;
           CmdResourceOptions := OptResourceOptions options |} in
      emit (EvRunnerFactory workingDirectory runnerOptions) ;;;
      let imageNames := imageNames job in
      scriptNames <~ forRange (writeScript job workingDirectory) 0 (DockerSteps job) [] ;;
      emit (jobInfo "Setting up VM" job) ;;;
      r <~ call (λ t, runner_Setup w t ctx imageNames) (EvSetup ctx imageNames) ;;
      match r with
      | Some e => return_ (Some (wrapError e "failed to setup virtual machine"))
      | None =>
        defer DeferTeardown ;;;
        forRange (runDockerStep job ctx scriptNames) 0 (DockerSteps job) tt ;;;
        forRange (runCliStep job ctx) 0 (CliSteps job) tt ;;;
        return_ None
      end
    end
  end.

(** One deferred call, run when [Handle] returns: [err] is the named result,
    which the teardown closure may replace. *)
Definition runDeferred (ctx : Context) (job : Job)
    (st : option error * trace) (d : deferred) : option error * trace :=
  let '(err, t) := st in
  match d with
  | DeferCancel => (err, t ++ [EvCancel])
  | DeferHoneyEvent =>
    if honey_Enabled w then (err, t ++ [EvHoneySend ctx job err]) else (err, t)
  | DeferLoggerFlush => (err, t ++ [EvLoggerFlush])
  | DeferRemoveAll workingDirectory => (err, t ++ [EvRemoveAll workingDirectory])
  | DeferNameSetRemove name => (err, t ++ [EvNameSetRemove name])
  | DeferTeardown =>
    let r := runner_Teardown w t Background in
    (match r with
     | Some teardownErr => Some (multierror_Append err teardownErr)
     | None => err
     end,
     t ++ [EvTeardown Background r])
  end.

(** The value of [err] when the body has executed [return], before any
    deferred call has run, and the frame at that point. *)
Definition handleReturn (ctx : Context) (job : Job) : option error * frame :=
  let ctx := WithDeadline ctx (MaximumRuntimePerJob options) in
  match handleBody ctx job (mkFrame [] []) with
  | (Return e, s) => (e, s)
  | (Next _, s) => (None, s)
  end.

(** [Handle]: the body, then the deferred calls, last registered first.
    Returns the error and the calls made. *)
Definition Handle (ctx : Context) (job : Job) : option error * trace :=
  let '(e, s) := handleReturn ctx job in
  let ctx := WithDeadline ctx (MaximumRuntimePerJob options) in
  foldl (runDeferred ctx job) (e, calls s) (deferreds s).

End Handle.

(** ** The shape of a run of Handle *)

(** The events of a loop that makes one fallible call per element and stops at
    the first failure: [evs_of i x r] are the events of the turn for element
    [x] at index [i] when the call answers [r]. The last index is the failure,
    if any. *)
Inductive steps_trace {A} (evs_of : nat → A → option error → trace)
  : nat → list A → trace → option error → Prop :=
| steps_done i : steps_trace evs_of i [] [] None
| steps_failed i x l e : steps_trace evs_of i (x :: l) (evs_of i x (Some e)) (Some e)
| steps_next i x l evs fail :
    steps_trace evs_of (S i) l evs fail →
    steps_trace evs_of i (x :: l) (evs_of i x None ++ evs) fail.

Definition write_within (workingDirectory : string) (ev : event) : Prop :=
  ∃ path content r,
    ev = EvWriteFile path content r ∧ strings_HasPrefix path workingDirectory = true.

(** The file passes the guard of the materialization loop, for some answer of
    [os.Getwd]. *)
Definition passes_guard (workingDirectory : string) (file : string * string) : Prop :=
  ∃ getwd path,
    filepath_Abs getwd (filepath_Join [workingDirectory; file.1]) = Ok path
    ∧ strings_HasPrefix path workingDirectory = true.

Section RunShape.
Context (w : World) (options : Options).

(** What the accumulator of a loop is after all its turns. *)
Fixpoint loop_acc {A B} (upd : nat → A → B → B) (i : nat) (l : list A) (acc : B) : B :=
  match l with
  | [] => acc
  | x :: l' => loop_acc upd (S i) l' (upd i x acc)
  end.

Definition script_events (job : Job) (workingDirectory : string)
    (i : nat) (dockerStep : DockerStep) (r : option error) : trace :=
  [EvWriteFile
     (filepath_Join [workingDirectory; ScriptsPath w;
                     scriptNameFromJobStep job (Z.of_nat i)])
     (buildScript dockerStep) r].

Definition docker_events (job : Job) (ctx : Context) (scriptNames : list string)
    (i : nat) (dockerStep : DockerStep) (r : option error) : trace :=
  [jobInfo ("Running docker step #" +:+ fmt_d (Z.of_nat i)) job;
   EvRun ctx (dockerStepCommand scriptNames i dockerStep) r].

Definition cli_events (job : Job) (ctx : Context)
    (i : nat) (cliStep : CliStep) (r : option error) : trace :=
  [jobInfo ("Running src-cli step #" +:+ fmt_d (Z.of_nat i)) job;
   EvRun ctx (cliStepCommand i cliStep) r].

Definition scriptNamesFrom (job : Job) (i n : nat) : list string :=
  (λ k, scriptNameFromJobStep job (Z.of_nat k)) <$> seq i n.

Context (ctx : Context) (job : Job).

(** The context [Handle] works under, bound by the job's deadline. *)
Definition jobContext : Context := WithDeadline ctx (MaximumRuntimePerJob options).

Definition vmName (vmNameSuffix : UUID) : string :=
  VMPrefix options +:+ "-" +:+ UUID_String vmNameSuffix.

Definition runnerOptions (vmNameSuffix : UUID) : CommandOptions :=
  {| ExecutorName := vmName vmNameSuffix;
     CmdFirecrackerOptions := OptFirecrackerOptions options;
     CmdResourceOptions := OptResourceOptions options |}.

(** The calls every run starts with ... *)
Definition prologue : trace :=
  [EvNewLogger (union w (OptRedactedValues options) (RedactedValues job));
   jobInfo "Creating workspace" job;
   EvRunnerFactory "" zeroCommandOptions].

(** ... and the deferred calls every run ends with. *)
Definition epilogue (err : option error) : trace :=
  [EvLoggerFlush]
  ++ (if honey_Enabled w then [EvHoneySend jobContext job err] else [])
  ++ [EvCancel].

Definition prepared (workingDirectory : string) : trace :=
  prologue
  ++ [EvPrepareWorkspace jobContext (RepositoryName job) (Commit job)
                         (Ok workingDirectory)].

Definition named (workingDirectory : string) (vmNameSuffix : UUID) : trace :=
  [EvNewRandom (Ok vmNameSuffix);
   EvNameSetAdd (vmName vmNameSuffix);
   EvRunnerFactory workingDirectory (runnerOptions vmNameSuffix)].

Definition settingUp (r : option error) : trace :=
  [jobInfo "Setting up VM" job; EvSetup jobContext (imageNames w job) r].

Definition allScriptNames : list string :=
  scriptNamesFrom job 0 (length (DockerSteps job)).

(** The error in flight when the step loops are left: that of the docker
    loop if it failed, else that of the src-cli loop. *)
Definition inflight (dockerFailure cliFailure : option error) : option error :=
  match dockerFailure with
  | Some e => Some (wrapError w options e "failed to perform docker step")
  | None =>
    (λ e, wrapError w options e "failed to perform src-cli step") <$> cliFailure
  end.

(** What the deferred teardown leaves in [err]. *)
Definition afterTeardown (err teardown : option error) : option error :=
  match teardown with
  | Some teardownErr => Some (multierror_Append err teardownErr)
  | None => err
  end.

(** The runs of [Handle], by the stage at which the body returns: the error
    in flight at the [return], the error [Handle] returns in the end, and
    the calls made, deferred ones included. *)
Inductive HandleRun : option error → option error → trace → Prop :=
| run_prepare_failed e :
    let err := Some (wrapError w options e "failed to prepare workspace") in
    HandleRun err err
      (prologue
       ++ [EvPrepareWorkspace jobContext (RepositoryName job) (Commit job) (Err e)]
       ++ epilogue err)
| run_files_failed workingDirectory writes e :
    Forall (write_within workingDirectory) writes →
    HandleRun (Some e) (Some e)
      (prepared workingDirectory ++ writes
       ++ [EvRemoveAll workingDirectory] ++ epilogue (Some e))
| run_uuid_failed workingDirectory writes e :
    Forall (write_within workingDirectory) writes →
    Forall (passes_guard workingDirectory) (rangeMap w (VirtualMachineFiles job)) →
    HandleRun (Some e) (Some e)
      (prepared workingDirectory ++ writes ++ [EvNewRandom (Err e)]
       ++ [EvRemoveAll workingDirectory] ++ epilogue (Some e))
| run_scripts_failed workingDirectory writes vmNameSuffix scripts e :
    Forall (write_within workingDirectory) writes →
    Forall (passes_guard workingDirectory) (rangeMap w (VirtualMachineFiles job)) →
    steps_trace (script_events job workingDirectory) 0 (DockerSteps job)
                scripts (Some e) →
    HandleRun (Some e) (Some e)
      (prepared workingDirectory ++ writes ++ named workingDirectory vmNameSuffix
       ++ scripts
       ++ [EvNameSetRemove (vmName vmNameSuffix); EvRemoveAll workingDirectory]
       ++ epilogue (Some e))
| run_setup_failed workingDirectory writes vmNameSuffix scripts e :
    Forall (write_within workingDirectory) writes →
    Forall (passes_guard workingDirectory) (rangeMap w (VirtualMachineFiles job)) →
    steps_trace (script_events job workingDirectory) 0 (DockerSteps job)
                scripts None →
    let err := Some (wrapError w options e "failed to setup virtual machine") in
    HandleRun err err
      (prepared workingDirectory ++ writes ++ named workingDirectory vmNameSuffix
       ++ scripts ++ settingUp (Some e)
       ++ [EvNameSetRemove (vmName vmNameSuffix); EvRemoveAll workingDirectory]
       ++ epilogue err)
| run_steps workingDirectory writes vmNameSuffix scripts
            docker dockerFailure cli cliFailure teardown :
    Forall (write_within workingDirectory) writes →
    Forall (passes_guard workingDirectory) (rangeMap w (VirtualMachineFiles job)) →
    steps_trace (script_events job workingDirectory) 0 (DockerSteps job)
                scripts None →
    steps_trace (docker_events job jobContext allScriptNames) 0 (DockerSteps job)
                docker dockerFailure →
    match dockerFailure with
    | Some _ => cli = [] ∧ cliFailure = None
    | None => steps_trace (cli_events job jobContext) 0 (CliSteps job) cli cliFailure
    end →
    let err := afterTeardown (inflight dockerFailure cliFailure) teardown in
    HandleRun (inflight dockerFailure cliFailure) err
      (prepared workingDirectory ++ writes ++ named workingDirectory vmNameSuffix
       ++ scripts ++ settingUp None
       ++ docker ++ cli
       ++ [EvTeardown Background teardown;
           EvNameSetRemove (vmName vmNameSuffix); EvRemoveAll workingDirectory]
       ++ epilogue err).

Definition is_write (ev : event) : Prop :=
  match ev with EvWriteFile _ _ _ => True | _ => False end.

(** A turn of a step loop: a log line, or a [Run] under the job's context. *)
Definition is_step (ev : event) : Prop :=
  match ev with
  | EvLog _ => True
  | EvRun c _ _ => c = jobContext
  | _ => False
  end.

End RunShape.

Arguments is_write : simpl nomatch.

(** ** Vocabulary of the theorems *)

(** Calls on the environment: provisioning, steps, teardown. *)
Definition provisioning (ev : event) : Prop :=
  match ev with
  | EvSetup _ _ _ | EvRun _ _ _ | EvTeardown _ _ => True
  | _ => False
  end.

(** Calls on the set of names in use. *)
Definition naming (ev : event) : Prop :=
  match ev with
  | EvNameSetAdd _ | EvNameSetRemove _ => True
  | _ => False
  end.

(** The [Run] calls of a trace, in order. *)
Definition runs (t : trace) : list (Context * CommandSpec * option error) :=
  omap (λ ev, match ev with EvRun c spec r => Some (c, spec, r) | _ => None end) t.

(** The commands of a job in the order in which [Handle] means to run them:
    one per docker step, then one per src-cli step. *)
Definition plan (job : Job) : list CommandSpec :=
  imap (dockerStepCommand (allScriptNames job)) (DockerSteps job)
  ++ imap cliStepCommand (CliSteps job).

(** What the [Run] call for the docker step at index [i] is to carry: the key
    of the step, its image, directory and environment, and no command but the
    script written for the step. *)
Definition docker_step_call (job : Job) (i : nat) (dockerStep : DockerStep)
  : CommandSpec :=
  {| Key := "step.docker." +:+ fmt_d (Z.of_nat i);
     SpecImage := Image dockerStep;
     ScriptPath := scriptNameFromJobStep job (Z.of_nat i);
     Command := [];
     SpecDir := Dir dockerStep;
     SpecEnv := Env dockerStep;
     SpecOperation := operations_Exec |}.

(** What the [Run] call for the src-cli step at index [i] is to carry: the key
    of the step, the command [src] with the step's arguments, its directory
    and environment, and neither image nor script. *)
Definition cli_step_call (i : nat) (cliStep : CliStep) : CommandSpec :=
  {| Key := "step.src." +:+ fmt_d (Z.of_nat i);
     SpecImage := "";
     ScriptPath := "";
     Command := "src" :: CliCommands cliStep;
     SpecDir := CliDir cliStep;
     SpecEnv := CliEnv cliStep;
     SpecOperation := operations_Exec |}.

(** The calls the steps of a job stand for, in declared order: the docker
    steps first, then the src-cli steps. *)
Definition declared_calls (job : Job) : list CommandSpec :=
  imap (docker_step_call job) (DockerSteps job) ++ imap cli_step_call (CliSteps job).

(** The message a failure of the step at position [k] of [declared_calls] is
    wrapped with. *)
Definition step_message (job : Job) (k : nat) : string :=
  if decide (k < length (DockerSteps job)) then "failed to perform docker step"
  else "failed to perform src-cli step".

(** The stage a failed call belongs to: its error and the message [Handle]
    wraps it with. A docker command carries a script and no [Command]; a
    src-cli command carries ["src"] and its arguments. *)
Definition stage_of (ev : event) : option (error * string) :=
  match ev with
  | EvPrepareWorkspace _ _ _ (Err e) => Some (e, "failed to prepare workspace")
  | EvSetup _ _ (Some e) => Some (e, "failed to setup virtual machine")
  | EvRun _ spec (Some e) =>
    Some (e, match Command spec with
             | [] => "failed to perform docker step"
             | _ => "failed to perform src-cli step"
             end)
  | _ => None
  end.

(** The error [wrapError] puts in place of one that is a deadline error. *)
Definition deadlineError (w : World) (options : Options) : error :=
  Errorf ("job exceeded maximum execution time of "
          +:+ Duration_String w (MaximumRuntimePerJob options)).

(** The names a path consists of once it is cleaned, in order: what
    [filepath.Clean] joins with separators. *)
Definition path_names (path : string) : list string :=
  rev (foldl (clean_element (strings_HasPrefix path "/")) [] (path_elements path)).

(** The names that follow the names [dir] in [path], when [path] starts with
    them. *)
Fixpoint names_below (dir path : list string) : option (list string) :=
  match dir, path with
  | [], _ => Some path
  | d :: dir', p :: path' => if decide (d = p) then names_below dir' path' else None
  | _ :: _, [] => None
  end.

(** [path] is the directory [dir] or lies below it: the names of [path] are
    those of [dir] followed by names none of which leads upwards. The two
    paths are read from the same place: both absolute, or both relative to one
    directory. *)
Definition within (dir path : string) : bool :=
  bool_decide (filepath_IsAbs dir = filepath_IsAbs path)
  && match names_below (path_names dir) (path_names path) with
     | Some below => bool_decide (".." ∉ below)
     | None => false
     end.

(** The map [imageMap] of [Handle] once its loop is over. *)
Definition imageMap (job : Job) : gset string :=
  foldl (λ m dockerStep, {[Image dockerStep]} ∪ m) ∅ (DockerSteps job).

(** The commands of a step, each on a line of its own. *)
Definition script_lines (commands : list string) : string :=
  foldr (λ command rest, command +:+ newline +:+ rest) "" commands.

Fixpoint string_forall (P : ascii → bool) (s : string) : bool :=
  match s with
  | EmptyString => true
  | String c s' => P c && string_forall P s'
  end.

(** A name that [filepath.Clean] keeps in an absolute path: it holds no
    separator and is neither empty nor [.] nor [..]. *)
Definition plain_name (e : string) : Prop :=
  string_forall (λ c, negb (is_separator c)) e = true
  ∧ e ≠ "" ∧ e ≠ "." ∧ e ≠ "..".

(** The characters [%d] prints: digits and the minus sign. *)
Definition decimal_char (c : ascii) : bool :=
  existsb (Ascii.eqb c) (list_ascii_of_string "-0123456789").

(** The calls every run ends with: flushing the logger, sending the
    telemetry event, cancelling the context. *)
Definition closing (ev : event) : Prop :=
  match ev with
  | EvLoggerFlush | EvHoneySend _ _ _ | EvCancel => True
  | _ => False
  end.

Definition is_removeAll (ev : event) : Prop :=
  match ev with EvRemoveAll _ => True | _ => False end.

(** The context a call is made under, for the calls that take one. *)
Definition context_of (ev : event) : option Context :=
  match ev with
  | EvPrepareWorkspace c _ _ _ | EvSetup c _ _ | EvRun c _ _
  | EvTeardown c _ | EvHoneySend c _ _ => Some c
  | _ => None
  end.

(** The context [Handle] is expected to make a call under: [Teardown] under
    [context.Background()], any other call under the job's context. *)
Definition expected_context (options : Options) (ctx : Context) (ev : event)
  : Context :=
  match ev with
  | EvTeardown _ _ => Background
  | _ => jobContext options ctx
  end.

(** The calls that use the environment once it is set up. *)
Definition uses_environment (ev : event) : Prop :=
  match ev with
  | EvRun _ _ _ | EvTeardown _ _ => True
  | _ => False
  end.

(** The string holds no line feed. *)
Definition single_line (s : string) : bool :=
  string_forall (λ c, negb (Ascii.eqb c "010")) s.

(** What one turn of the loop over the virtual machine files records when the
    file passes the guard and is written. *)
Definition file_written (file : string * string) (path : string) : event :=
  EvWriteFile path file.2 None.

(** [path] is what the loop resolves the file to, and it passes the guard. *)
Definition resolves_within (workingDirectory : string) (file : string * string)
    (path : string) : Prop :=
  (∃ getwd, filepath_Abs getwd (filepath_Join [workingDirectory; file.1]) = Ok path)
  ∧ strings_HasPrefix path workingDirectory = true.

(** ** Sample data *)

(** The answer "may dequeue", with nothing logged. *)
Definition mayDequeue : PreDequeueResult * list LogRecord :=
  (mkPreDequeueResult true None None, []).

(** A world for examples: the VM listing answers [running] for the prefix
    ["executor"]; [Run] answers [run]; [Teardown] answers [teardown]; every
    other call succeeds. *)
Definition exampleWorld (running : result (list string))
    (run : CommandSpec → option error) (teardown : option error) : World :=
  {| rangeMap := map_to_list;
     rangeSet := elements;
     ScriptsPath := ".sourcegraph-executor";
     Duration_String := λ d, fmt_d (d / 1000000000)%Z +:+ "s";
     honey_Enabled := true;
     os_Getwd := λ _, Ok "/";
     os_WriteFile := λ _ _ _, None;
     uuid_NewRandom := λ _, Ok (mkUUID "6ba7b810-9dad-11d1-80b4-00c04fd430c8");
     ignite_CurrentlyRunningVMs :=
       λ _ prefix, if decide (prefix = "executor") then running else Ok [];
     prepareWorkspace := λ _ _ _ _, Ok "/tmp/workspace-42";
     runner_Setup := λ _ _ _, None;
     runner_Run := λ _ _ spec, run spec;
     runner_Teardown := λ _ _, teardown |}.

Definition sampleWorld (running : result (list string)) : World :=
  exampleWorld running (λ _, None) None.

Definition sampleOptions (firecracker : bool) (handlers : Z) : Options :=
  {| VMPrefix := "executor";
     OptFirecrackerOptions := mkFirecrackerOptions firecracker "sourcegraph/ignite-ubuntu";
     OptResourceOptions := mkResourceOptions 4%Z "12G" "20G";
     OptWorkerOptions := mkWorkerOptions handlers;
     MaximumRuntimePerJob := 5000000000%Z;
     OptRedactedValues := {[ "hunter2" := "${EXECUTOR_FRONTEND_PASSWORD}" ]} |}.

Definition sampleJob : Job :=
  {| ID := 42;
     RepositoryName := "github.com/sourcegraph/sourcegraph";
     Commit := "deadbeef";
     VirtualMachineFiles := {[ "batch-spec.yaml" := "name: hello" ]};
     DockerSteps := [mkDockerStep "alpine:3" ["echo hello"; "ls -la"] "" [];
                     mkDockerStep "alpine:3" ["pwd"] "sub" ["A=b"]];
     CliSteps := [mkCliStep ["batch"; "preview"] "" []];
     RedactedValues := {[ "s3cr3t" := "${TOKEN}" ]} |}.

(** A run in which the second docker step is aborted by the job's deadline and
    stopping the VM then fails too. *)
Definition deadlineWorld : World :=
  exampleWorld (Ok [])
    (λ spec, if decide (Key spec = "step.docker.1")
             then Some (Wrap DeadlineExceeded "docker run")
             else None)
    (Some (New "ignite: failed to stop VM")).

(** A run in which the src-cli step fails and stopping the VM then fails
    too. *)
Definition failingWorld : World :=
  exampleWorld (Ok [])
    (λ spec, if decide (Key spec = "step.src.0")
             then Some (New "exit status 1")
             else None)
    (Some (New "ignite: failed to stop VM")).

Definition escapeJob : Job :=
  {| ID := 7;
     RepositoryName := "github.com/sourcegraph/sourcegraph";
     Commit := "deadbeef";
     VirtualMachineFiles := {[ "a" := "x"; "../escape" := "y" ]};
     DockerSteps := [];
     CliSteps := [];
     RedactedValues := ∅ |}.

Definition siblingJob : Job :=
  {| ID := 8;
     RepositoryName := "github.com/sourcegraph/sourcegraph";
     Commit := "deadbeef";
     VirtualMachineFiles := {[ "../workspace-42-evil/x" := "y" ]};
     DockerSteps := [];
     CliSteps := [];
     RedactedValues := ∅ |}.

Definition clashJob : Job :=
  {| ID := 9;
     RepositoryName := "github.com/sourcegraph/sourcegraph";
     Commit := "deadbeef";
     VirtualMachineFiles := ∅;
     DockerSteps := [];
     CliSteps := [];
     RedactedValues := {[ "hunter2" := "${JOB_TOKEN}" ]} |}.

(** * Verification *)

(** ** How the primitives reduce under [bind] *)

Lemma bind_defer {B} d (k : unit → M B) s :
  bind (defer d) k s = k tt (mkFrame (calls s) (d :: deferreds s)).
Proof. reflexivity. Qed.

Lemma bind_emit {B} ev (k : unit → M B) s :
  bind (emit ev) k s = k tt (mkFrame (calls s ++ [ev]) (deferreds s)).
Proof. reflexivity. Qed.

Lemma bind_call {A B} (ask : trace → A) ev (k : A → M B) s :
  bind (call ask ev) k s
  = k (ask (calls s)) (mkFrame (calls s ++ [ev (ask (calls s))]) (deferreds s)).
Proof. reflexivity. Qed.

Lemma bind_eq {A B} (m : M A) (k : A → M B) s :
  bind m k s = match m s with
               | (Next a, s') => k a s'
               | (Return e, s') => (Return e, s')
               end.
Proof. reflexivity. Qed.

Ltac run_prims H :=
  repeat (first [rewrite bind_defer in H | rewrite bind_emit in H
                | rewrite bind_call in H];
          cbn [calls deferreds] in H).

(** ** PreDequeue *)

Lemma exampleWorld_OK running run teardown : WorldOK (exampleWorld running run teardown).
Proof. by split. Qed.

(** C3. PreDequeue answers "may dequeue" whenever Firecracker execution is
    disabled, or the number of running VMs that carry the instance's prefix is
    strictly below the number of handlers; when it is enabled and that number
    has reached the number of handlers, it answers "must not dequeue" with no
    error and logs one warning. *)
Theorem PreDequeue_admission (w : World) (options : Options) (ctx : Context) :
  (Enabled (OptFirecrackerOptions options) = false →
   PreDequeue w options ctx = mayDequeue)
  ∧ (∀ currentVMs,
      ignite_CurrentlyRunningVMs w Background (VMPrefix options) = Ok currentVMs →
      (Z.of_nat (length currentVMs) < NumHandlers (OptWorkerOptions options))%Z →
      PreDequeue w options ctx = mayDequeue)
  ∧ (∀ currentVMs,
      Enabled (OptFirecrackerOptions options) = true →
      ignite_CurrentlyRunningVMs w Background (VMPrefix options) = Ok currentVMs →
      ¬ (Z.of_nat (length currentVMs) < NumHandlers (OptWorkerOptions options))%Z →
      ∃ warning,
        PreDequeue w options ctx = (mkPreDequeueResult false None None, [warning])
        ∧ Lvl warning = LvlWarn).
Proof.
  unfold PreDequeue, mayDequeue. repeat split.
  - intros ->. reflexivity.
  - intros vms Hq Hlt.
    destruct (Enabled _); simpl; [|reflexivity].
    rewrite Hq. apply Z.ltb_lt in Hlt. by rewrite Hlt.
  - intros vms -> Hq Hge. simpl. rewrite Hq.
    apply Z.ltb_nlt in Hge. rewrite Hge. eexists. split; reflexivity.
Qed.

Lemma PreDequeue_admission_witness :
  PreDequeue (sampleWorld (Err (New "ignite: exit status 1")))
             (sampleOptions false 1) Incoming = mayDequeue
  ∧ PreDequeue (sampleWorld (Ok ["executor-a"])) (sampleOptions true 2) Incoming
    = mayDequeue
  ∧ dequeueable (PreDequeue (sampleWorld (Ok ["executor-a"; "executor-b"]))
                            (sampleOptions true 2) Incoming).1 = false.
Proof.
  split; [|split].
  - apply (proj1 (PreDequeue_admission _ (sampleOptions false 1) Incoming)).
    reflexivity.
  - apply (proj1 (proj2 (PreDequeue_admission
                           (sampleWorld (Ok ["executor-a"]))
                           (sampleOptions true 2) Incoming)) ["executor-a"]).
    + reflexivity.
    + simpl. lia.
  - destruct (proj2 (proj2 (PreDequeue_admission
                              (sampleWorld (Ok ["executor-a"; "executor-b"]))
                              (sampleOptions true 2) Incoming))
                ["executor-a"; "executor-b"]) as (warning & -> & _).
    + reflexivity.
    + reflexivity.
    + simpl. lia.
    + reflexivity.
Defined.

(** C10. With Firecracker execution enabled, a failure of the query for the
    running VMs makes PreDequeue answer "must not dequeue" together with that
    very error, and no warning is logged. *)
Theorem PreDequeue_query_failure (w : World) (options : Options) (ctx : Context)
    (e : error) :
  Enabled (OptFirecrackerOptions options) = true →
  ignite_CurrentlyRunningVMs w Background (VMPrefix options) = Err e →
  PreDequeue w options ctx = (mkPreDequeueResult false None (Some e), []).
Proof.
  intros Hen Hq. unfold PreDequeue. by rewrite Hen, Hq.
Qed.

Lemma PreDequeue_query_failure_witness :
  PreDequeue (sampleWorld (Err (New "ignite: exit status 1")))
             (sampleOptions true 2) Incoming
  = (mkPreDequeueResult false None (Some (New "ignite: exit status 1")), []).
Proof.
  apply PreDequeue_query_failure; reflexivity.
Defined.

(** ** The shape of a run of Handle *)

Lemma forRange_files w workingDirectory fs : ∀ i s r s',
  forRange (writeVirtualMachineFile w workingDirectory) i fs tt s = (r, s') →
  deferreds s' = deferreds s
  ∧ ∃ evs, calls s' = calls s ++ evs
    ∧ Forall (write_within workingDirectory) evs
    ∧ ((r = Next tt ∧ Forall (passes_guard workingDirectory) fs)
       ∨ ∃ e, r = Return (Some e)).
Proof.
  induction fs as [|[relativePath content] fs IH]; intros i s r s' Hrun.
  - inversion Hrun; subst. split; [done|]. exists []. rewrite app_nil_r.
    split; [done|]. split; [constructor|]. left. by split.
  - cbn [forRange] in Hrun. unfold bind at 1 in Hrun.
    unfold writeVirtualMachineFile at 1 in Hrun.
    unfold bind at 1 in Hrun. unfold peek at 1 in Hrun.
    destruct (filepath_Abs _ _) as [path|e] eqn:Habs.
    + destruct (strings_HasPrefix path workingDirectory) eqn:Hpre;
        cbn [negb] in Hrun; unfold bind, call, return_, pure in Hrun.
      * destruct (os_WriteFile w (calls s) path content) as [e|] eqn:Hw.
        -- inversion Hrun; subst. cbn. split; [done|]. eexists. split; [done|].
           split; [|right; eauto]. repeat constructor. by exists path, content, (Some e).
        -- apply IH in Hrun as (Hd & evs & Hc & Hall & Hr). cbn in Hd, Hc.
           split; [done|]. exists (EvWriteFile path content None :: evs).
           split; [by rewrite Hc, <- app_assoc|].
           split; [constructor; [by exists path, content, None|done]|].
           destruct Hr as [[-> Hpass]|?]; [left|by right].
           split; [done|]. constructor; [|done]. by exists (os_Getwd w (calls s)), path.
      * inversion Hrun; subst. split; [done|]. exists []. rewrite app_nil_r.
        split; [done|]. split; [constructor|]. right. eauto.
    + inversion Hrun; subst. split; [done|]. exists []. rewrite app_nil_r.
      split; [done|]. split; [constructor|]. right. eauto.
Qed.

Lemma forRange_steps {A B} (body : nat → A → B → M B)
    (evs_of : nat → A → option error → trace)
    (fail : error → error) (upd : nat → A → B → B) :
  (∀ i x acc s, ∃ r,
      body i x acc s
      = (match r with
         | Some e => Return (Some (fail e))
         | None => Next (upd i x acc)
         end,
         mkFrame (calls s ++ evs_of i x r) (deferreds s))) →
  ∀ l i acc s r s',
    forRange body i l acc s = (r, s') →
    deferreds s' = deferreds s
    ∧ ∃ evs failure,
        calls s' = calls s ++ evs
        ∧ steps_trace evs_of i l evs failure
        ∧ r = match failure with
              | Some e => Return (Some (fail e))
              | None => Next (loop_acc upd i l acc)
              end.
Proof.
  intros Hbody l. induction l as [|x l IH]; intros i acc s r s' Hrun.
  - inversion Hrun; subst. split; [done|]. exists [], None.
    rewrite app_nil_r. split; [done|]. split; [constructor|done].
  - cbn [forRange] in Hrun. unfold bind at 1 in Hrun.
    destruct (Hbody i x acc s) as [[e|] Hb]; rewrite Hb in Hrun.
    + inversion Hrun; subst. cbn. split; [done|].
      exists (evs_of i x (Some e)), (Some e). split; [done|].
      split; [constructor|done].
    + apply IH in Hrun as (Hd & evs & failure & Hc & Hst & Hr).
      cbn in Hd, Hc. split; [done|].
      exists (evs_of i x None ++ evs), failure.
      split; [by rewrite Hc, <- app_assoc|]. split; [by constructor|done].
Qed.

Lemma writeScript_turn w job workingDirectory i dockerStep scriptNames s :
  ∃ r, writeScript w job workingDirectory i dockerStep scriptNames s
       = (match r with
          | Some e => Return (Some (id e))
          | None => Next (scriptNames ++ [scriptNameFromJobStep job (Z.of_nat i)])
          end,
          mkFrame (calls s ++ script_events w job workingDirectory i dockerStep r)
                  (deferreds s)).
Proof.
  unfold writeScript, bind, call, return_, pure, script_events.
  match goal with |- context [os_WriteFile w ?t ?p ?c] =>
    exists (os_WriteFile w t p c); by destruct (os_WriteFile w t p c) end.
Qed.

Lemma runDockerStep_turn w options job ctx scriptNames i dockerStep u s :
  ∃ r, runDockerStep w options job ctx scriptNames i dockerStep u s
       = (match r with
          | Some e => Return (Some (wrapError w options e "failed to perform docker step"))
          | None => Next tt
          end,
          mkFrame (calls s ++ docker_events job ctx scriptNames i dockerStep r)
                  (deferreds s)).
Proof.
  unfold runDockerStep, bind, call, emit, return_, pure, docker_events.
  cbn [calls deferreds].
  match goal with |- context [runner_Run w ?t ?c ?p] =>
    exists (runner_Run w t c p); destruct (runner_Run w t c p) end;
    by rewrite <- app_assoc.
Qed.

Lemma runCliStep_turn w options job ctx i cliStep u s :
  ∃ r, runCliStep w options job ctx i cliStep u s
       = (match r with
          | Some e => Return (Some (wrapError w options e "failed to perform src-cli step"))
          | None => Next tt
          end,
          mkFrame (calls s ++ cli_events job ctx i cliStep r) (deferreds s)).
Proof.
  unfold runCliStep, bind, call, emit, return_, pure, cli_events.
  cbn [calls deferreds].
  match goal with |- context [runner_Run w ?t ?c ?p] =>
    exists (runner_Run w t c p); destruct (runner_Run w t c p) end;
    by rewrite <- app_assoc.
Qed.

Lemma loop_acc_scriptNames job (l : list DockerStep) : ∀ i names,
  loop_acc (λ i (_ : DockerStep) names, names ++ [scriptNameFromJobStep job (Z.of_nat i)])
           i l names
  = names ++ scriptNamesFrom job i (length l).
Proof.
  induction l as [|x l IH]; intros i names; cbn.
  - by rewrite app_nil_r.
  - rewrite IH. by rewrite <- app_assoc.
Qed.

Lemma handleReturn_eq w options ctx job :
  handleReturn w options ctx job
  = match handleBody w options (jobContext options ctx) job (mkFrame [] []) with
    | (Return e, s) => (e, s)
    | (Next _, s) => (None, s)
    end.
Proof. reflexivity. Qed.

Lemma HandleRun_calls w options ctx job err0 err t t' :
  HandleRun w options ctx job err0 err t → t = t' →
  HandleRun w options ctx job err0 err t'.
Proof. by intros ? <-. Qed.

Lemma run_epilogue w options ctx job (st : option error * trace) :
  runDeferred w (jobContext options ctx) job
    (runDeferred w (jobContext options ctx) job
       (runDeferred w (jobContext options ctx) job st DeferLoggerFlush)
       DeferHoneyEvent)
    DeferCancel
  = (st.1, st.2 ++ epilogue w options ctx job st.1).
Proof.
  destruct st as [err t]. unfold epilogue. cbn.
  destruct (honey_Enabled w); cbn; by rewrite <- ?app_assoc.
Qed.

Ltac run_deferreds :=
  cbn [foldl calls deferreds]; rewrite run_epilogue;
  cbn [runDeferred fst snd].

(** Every run of [Handle] has one of the shapes of [HandleRun]. *)
Theorem Handle_run w options ctx job :
  HandleRun w options ctx job
            (handleReturn w options ctx job).1
            (Handle w options ctx job).1 (Handle w options ctx job).2.
Proof.
  unfold Handle. fold (jobContext options ctx).
  destruct (handleReturn w options ctx job) as [err0 s0] eqn:Hret.
  cbn [fst snd]. rewrite handleReturn_eq in Hret.
  unfold handleBody in Hret. run_prims Hret.
  destruct (prepareWorkspace w _ _ _ _) as [workingDirectory|e].
  2:{ unfold return_ in Hret. inversion Hret; subst; clear Hret. run_deferreds.
      eapply HandleRun_calls; [apply (run_prepare_failed w options ctx job e)|].
      unfold prologue. cbn [app]. reflexivity. }
  run_prims Hret. rewrite bind_eq in Hret.
  destruct (forRange (writeVirtualMachineFile _ _) _ _ _ _) as [r1 s1] eqn:Hfiles.
  apply forRange_files in Hfiles as (Hd1 & writes & Hc1 & Hwrites & Hr1).
  cbn [calls deferreds] in Hd1, Hc1. destruct s1 as [c1 d1]. cbn in Hd1, Hc1. subst c1 d1.
  destruct Hr1 as [[-> Hpass]|[e ->]].
  2:{ inversion Hret; subst; clear Hret. run_deferreds.
      eapply HandleRun_calls; [apply (run_files_failed w options ctx job workingDirectory writes e Hwrites)|].
      unfold prepared, prologue. cbn [app]. by rewrite <- ?app_assoc. }
  run_prims Hret.
  destruct (uuid_NewRandom w _) as [vmNameSuffix|e].
  2:{ unfold return_ in Hret. inversion Hret; subst; clear Hret. run_deferreds.
      eapply HandleRun_calls;
        [apply (run_uuid_failed w options ctx job workingDirectory writes e Hwrites Hpass)|].
      unfold prepared, prologue. cbn [app]. by rewrite <- ?app_assoc. }
  run_prims Hret. rewrite bind_eq in Hret.
  destruct (forRange (writeScript _ _ _) _ _ _ _) as [r2 s2] eqn:Hscripts.
  eapply forRange_steps in Hscripts as (Hd2 & scripts & sfail & Hc2 & Hst2 & Hr2);
    [|apply writeScript_turn].
  destruct s2 as [c2 d2]. cbn in Hd2, Hc2. subst c2 d2 r2.
  destruct sfail as [e|].
  { inversion Hret; subst; clear Hret. run_deferreds.
    eapply HandleRun_calls;
      [apply (run_scripts_failed w options ctx job workingDirectory writes vmNameSuffix scripts e
                Hwrites Hpass Hst2)|].
    unfold prepared, prologue, named. cbn [app]. by rewrite <- ?app_assoc. }
  rewrite loop_acc_scriptNames in Hret. cbn [app] in Hret. fold (allScriptNames job) in Hret.
  run_prims Hret.
  destruct (runner_Setup w _ _ _) as [e|].
  { unfold return_ in Hret. inversion Hret; subst; clear Hret. run_deferreds.
    eapply HandleRun_calls;
      [apply (run_setup_failed w options ctx job workingDirectory writes vmNameSuffix scripts e
                Hwrites Hpass Hst2)|].
    unfold prepared, prologue, named, settingUp. cbn [app]. by rewrite <- ?app_assoc. }
  run_prims Hret. rewrite bind_eq in Hret.
  destruct (forRange (runDockerStep _ _ _ _ _) _ _ _ _) as [r3 s3] eqn:Hdocker.
  eapply forRange_steps in Hdocker as (Hd3 & docker & dfail & Hc3 & Hst3 & Hr3);
    [|apply runDockerStep_turn].
  destruct s3 as [c3 d3]. cbn in Hd3, Hc3. subst c3 d3 r3.
  destruct dfail as [e|].
  { inversion Hret; subst; clear Hret. run_deferreds.
    set (td := runner_Teardown w _ _).
    eapply HandleRun_calls;
      [apply (run_steps w options ctx job workingDirectory writes vmNameSuffix scripts docker
                (Some e) [] None td Hwrites Hpass Hst2 Hst3); by split|].
    unfold prepared, prologue, named, settingUp. cbn [app inflight afterTeardown].
    destruct td; by rewrite <- ?app_assoc. }
  rewrite bind_eq in Hret.
  destruct (forRange (runCliStep _ _ _ _) _ _ _ _) as [r4 s4] eqn:Hcli.
  eapply forRange_steps in Hcli as (Hd4 & cli & cfail & Hc4 & Hst4 & Hr4);
    [|apply runCliStep_turn].
  destruct s4 as [c4 d4]. cbn in Hd4, Hc4. subst c4 d4 r4.
  destruct cfail as [e|]; [|unfold return_ in Hret];
    inversion Hret; subst; clear Hret; run_deferreds;
    set (td := runner_Teardown w _ _);
    (eapply HandleRun_calls;
     [apply (run_steps w options ctx job workingDirectory writes vmNameSuffix scripts docker
               None cli _ td Hwrites Hpass Hst2 Hst3 Hst4)|]);
    unfold prepared, prologue, named, settingUp; cbn [app inflight afterTeardown fmap option_fmap option_map];
    destruct td; by rewrite <- ?app_assoc.
Qed.

(** ** What the pieces of a run consist of *)

Lemma steps_trace_Forall {A} (P : event → Prop)
    (evs_of : nat → A → option error → trace) i l evs failure :
  (∀ i x r, Forall P (evs_of i x r)) →
  steps_trace evs_of i l evs failure → Forall P evs.
Proof.
  intros HP. induction 1; [constructor|apply HP|].
  apply Forall_app. split; [apply HP|done].
Qed.

Lemma writes_are_writes workingDirectory writes :
  Forall (write_within workingDirectory) writes → Forall is_write writes.
Proof. intros H. eapply Forall_impl; [done|]. by intros ev (? & ? & ? & -> & _). Qed.

Lemma scripts_are_writes w job workingDirectory i l scripts failure :
  steps_trace (script_events w job workingDirectory) i l scripts failure →
  Forall is_write scripts.
Proof. apply steps_trace_Forall. intros. by repeat constructor. Qed.

Lemma docker_are_steps options ctx job names i l docker failure :
  steps_trace (docker_events job (jobContext options ctx) names) i l docker failure →
  Forall (is_step options ctx) docker.
Proof. apply steps_trace_Forall. intros. by repeat constructor. Qed.

Lemma cli_are_steps options ctx job i l cli failure :
  steps_trace (cli_events job (jobContext options ctx)) i l cli failure →
  Forall (is_step options ctx) cli.
Proof. apply steps_trace_Forall. intros. by repeat constructor. Qed.

Lemma elem_of_epilogue w options ctx job ev err :
  ev ∈ epilogue w options ctx job err →
  ev = EvLoggerFlush ∨ ev = EvHoneySend (jobContext options ctx) job err
  ∨ ev = EvCancel.
Proof.
  unfold epilogue. destruct (honey_Enabled w); cbn [app];
    rewrite ?elem_of_cons, elem_of_nil; tauto.
Qed.



(** ** Reading a run *)

(** Adds to the context what the events of each piece of a run are. *)
Ltac piece_facts :=
  repeat match goal with
  | H : Forall (write_within _) ?l |- _ =>
    lazymatch goal with
    | _ : Forall is_write l |- _ => fail
    | _ => let H' := fresh "Hwr" in pose proof H as H'; apply writes_are_writes in H'
    end
  | H : steps_trace (script_events _ _ _) _ _ ?l _ |- _ =>
    lazymatch goal with
    | _ : Forall is_write l |- _ => fail
    | _ => let H' := fresh "Hsc" in pose proof H as H'; apply scripts_are_writes in H'
    end
  | H : steps_trace (docker_events _ _ _) _ _ ?l _ |- _ =>
    lazymatch goal with
    | _ : Forall (is_step _ _) l |- _ => fail
    | _ => let H' := fresh "Hdk" in pose proof H as H'; apply docker_are_steps in H'
    end
  | H : steps_trace (cli_events _ _) _ _ ?l _ |- _ =>
    lazymatch goal with
    | _ : Forall (is_step _ _) l |- _ => fail
    | _ => let H' := fresh "Hcl" in pose proof H as H'; apply cli_are_steps in H'
    end
  end.

(** Splits a membership in a run into the memberships in its pieces, and
    reads each of them. *)
Ltac elem_of_run H :=
  unfold prepared, prologue, named, settingUp in H;
  rewrite ?elem_of_app, ?elem_of_cons, ?elem_of_nil in H;
  destruct_or! H;
  try (apply elem_of_epilogue in H; destruct_or! H);
  try match type of H with
      | ?ev ∈ ?l =>
        match goal with
        | Hl : Forall _ l |- _ =>
          let H' := fresh "Hin" in
          pose proof (proj1 (Forall_forall _ _) Hl _ H) as H'; cbn in H'
        end
      end;
  try done.

(** Takes the run of [Handle] apart by the stage at which the body returned. *)
Ltac handle_cases w options ctx job :=
  let Hrun := fresh "Hrun" in
  pose proof (Handle_run w options ctx job) as Hrun;
  destruct (Handle w options ctx job) as [? ?];
  destruct (handleReturn w options ctx job) as [? ?];
  cbn [fst snd] in *;
  destruct Hrun;
  try match goal with
      | H : match ?d with Some _ => _ | None => _ end |- _ =>
        destruct d; [destruct H as [-> ->]|]
      end;
  piece_facts.

(** ** Teardown *)

(** C1. When [Setup] has succeeded, [Teardown] is called exactly once before
    [Handle] returns, whatever the steps did, after [Setup] and under
    [context.Background()], which carries no deadline; if it fails, [Handle]
    returns the multierror made of the error in flight at the [return], if
    any, followed by the teardown error. *)
Theorem teardown_exactly_once (w : World) (options : Options) (ctx : Context)
    (job : Job) (c : Context) (images : list string) :
  EvSetup c images None ∈ (Handle w options ctx job).2 →
  ∃ pre teardown post,
    (Handle w options ctx job).2 = pre ++ EvTeardown Background teardown :: post
    ∧ EvSetup c images None ∈ pre
    ∧ (∀ c' r, EvTeardown c' r ∉ pre)
    ∧ (∀ c' r, EvTeardown c' r ∉ post)
    ∧ deadline_bound Background = false
    ∧ (Handle w options ctx job).1
      = match teardown with
        | None => (handleReturn w options ctx job).1
        | Some teardownErr =>
          Some (MultiError (option_list (handleReturn w options ctx job).1
                            ++ multierror_Errors teardownErr))
        end.
Proof.
  intros Hsetup. handle_cases w options ctx job.
  1-5: by elem_of_run Hsetup.
  1: exists (prepared w options ctx job workingDirectory ++ writes
             ++ named options workingDirectory vmNameSuffix ++ scripts
             ++ settingUp w options ctx job None ++ docker ++ []), teardown,
            ([EvNameSetRemove (vmName options vmNameSuffix);
              EvRemoveAll workingDirectory] ++ epilogue w options ctx job err0).
  2: exists (prepared w options ctx job workingDirectory ++ writes
             ++ named options workingDirectory vmNameSuffix ++ scripts
             ++ settingUp w options ctx job None ++ docker ++ cli), teardown,
            ([EvNameSetRemove (vmName options vmNameSuffix);
              EvRemoveAll workingDirectory] ++ epilogue w options ctx job err0).
  all: split; [by rewrite <- ?app_assoc|].
  all: split;
    [elem_of_run Hsetup; inversion Hsetup; subst;
     rewrite !elem_of_app; do 4 right; left; unfold settingUp; set_solver|].
  all: split; [intros c' r Hin; by elem_of_run Hin|].
  all: split; [intros c' r Hin; by elem_of_run Hin|].
  all: split; [done|].
  all: subst err0; unfold afterTeardown, inflight, multierror_Append, wrapError.
  all: destruct teardown; try destruct cliFailure; reflexivity.
Qed.

Lemma teardown_exactly_once_witness :
  ∃ images pre teardown post,
    (Handle (sampleWorld (Ok [])) (sampleOptions true 2) Incoming sampleJob).2
    = pre ++ EvTeardown Background teardown :: post
    ∧ EvSetup (jobContext (sampleOptions true 2) Incoming) images None ∈ pre.
Proof.
  exists ["alpine:3"].
  destruct (teardown_exactly_once (sampleWorld (Ok [])) (sampleOptions true 2)
              Incoming sampleJob (jobContext (sampleOptions true 2) Incoming)
              ["alpine:3"])
    as (pre & teardown & post & Heq & Hin & _).
  - vm_compute. repeat first [apply list_elem_of_here | apply list_elem_of_further].
  - exists pre, teardown, post. split; assumption.
Defined.

(** ** The name of the environment *)

(** Proves that all events of a run, given by its pieces, have a property
    that is read off the constructor of an event. *)
Ltac forall_run :=
  unfold prepared, prologue, named, settingUp;
  rewrite ?Forall_app, ?Forall_cons, ?Forall_nil; repeat split;
  first
    [ by (cbn; intuition)
    | by (eapply Forall_impl; [eassumption|]; intros []; cbn; intuition)
    | by (apply Forall_forall; intros ? Hep; apply elem_of_epilogue in Hep;
          destruct_or! Hep; subst; cbn; intuition) ].

(** C7. The name of the environment is the VM prefix, a hyphen and the UUID
    that [uuid.NewRandom] has just returned. Whenever [Handle] has added the
    name to the set of names in use, it removes that name before it returns:
    every call on the environment - [Setup], the steps, [Teardown] - lies
    between the addition and the removal, and no other name is added or
    removed. *)
Theorem name_in_use_around_environment (w : World) (options : Options)
    (ctx : Context) (job : Job) (name : string) :
  EvNameSetAdd name ∈ (Handle w options ctx job).2 →
  ∃ vmNameSuffix pre mid post,
    name = VMPrefix options +:+ "-" +:+ UUID_String vmNameSuffix
    ∧ (Handle w options ctx job).2
      = pre ++ [EvNewRandom (Ok vmNameSuffix); EvNameSetAdd name]
            ++ mid ++ [EvNameSetRemove name] ++ post
    ∧ Forall (λ ev, ¬ provisioning ev ∧ ¬ naming ev) pre
    ∧ Forall (λ ev, ¬ naming ev) mid
    ∧ Forall (λ ev, ¬ provisioning ev ∧ ¬ naming ev) post.
Proof.
  intros Hadd. handle_cases w options ctx job.
  1-3: by elem_of_run Hadd.
  all: assert (name = vmName options vmNameSuffix) as ->
    by (elem_of_run Hadd; congruence).
  all: exists vmNameSuffix, (prepared w options ctx job workingDirectory ++ writes).
  - exists (EvRunnerFactory workingDirectory (runnerOptions options vmNameSuffix)
            :: scripts),
           (EvRemoveAll workingDirectory :: epilogue w options ctx job (Some e)).
    split; [done|]. split; [unfold named; cbn [app]; by rewrite <- ?app_assoc|].
    split; [forall_run|]. split; [|forall_run].
    constructor; [cbn; tauto|forall_run].
  - exists (EvRunnerFactory workingDirectory (runnerOptions options vmNameSuffix)
            :: scripts ++ settingUp w options ctx job (Some e)),
           (EvRemoveAll workingDirectory :: epilogue w options ctx job err0).
    split; [done|]. split; [unfold named; cbn [app]; by rewrite <- ?app_assoc|].
    split; [forall_run|]. split; [|forall_run].
    constructor; [cbn; tauto|forall_run].
  - exists (EvRunnerFactory workingDirectory (runnerOptions options vmNameSuffix)
            :: scripts ++ settingUp w options ctx job None ++ docker
               ++ [EvTeardown Background teardown]),
           (EvRemoveAll workingDirectory :: epilogue w options ctx job err0).
    split; [done|]. split; [unfold named; cbn [app]; by rewrite <- ?app_assoc|].
    split; [forall_run|]. split; [|forall_run].
    constructor; [cbn; tauto|forall_run].
  - exists (EvRunnerFactory workingDirectory (runnerOptions options vmNameSuffix)
            :: scripts ++ settingUp w options ctx job None ++ docker ++ cli
               ++ [EvTeardown Background teardown]),
           (EvRemoveAll workingDirectory :: epilogue w options ctx job err0).
    split; [done|]. split; [unfold named; cbn [app]; by rewrite <- ?app_assoc|].
    split; [forall_run|]. split; [|forall_run].
    constructor; [cbn; tauto|forall_run].
Qed.

Lemma name_in_use_around_environment_witness :
  ∃ vmNameSuffix pre mid post,
    (Handle (sampleWorld (Ok [])) (sampleOptions true 2) Incoming sampleJob).2
    = pre ++ [EvNewRandom (Ok vmNameSuffix);
              EvNameSetAdd "executor-6ba7b810-9dad-11d1-80b4-00c04fd430c8"]
          ++ mid
          ++ [EvNameSetRemove "executor-6ba7b810-9dad-11d1-80b4-00c04fd430c8"]
          ++ post.
Proof.
  destruct (name_in_use_around_environment
              (sampleWorld (Ok [])) (sampleOptions true 2) Incoming sampleJob
              "executor-6ba7b810-9dad-11d1-80b4-00c04fd430c8")
    as (vmNameSuffix & pre & mid & post & _ & Heq & _).
  - vm_compute. repeat first [apply list_elem_of_here | apply list_elem_of_further].
  - exists vmNameSuffix, pre, mid, post. exact Heq.
Defined.

(** ** The order of the steps *)

Lemma runs_app t1 t2 : runs (t1 ++ t2) = runs t1 ++ runs t2.
Proof. apply omap_app. Qed.

Lemma runs_nil_Forall (P : event → Prop) t :
  (∀ c spec r, ¬ P (EvRun c spec r)) → Forall P t → runs t = [].
Proof.
  intros HP. induction 1 as [|ev t Hev _ IH]; [done|].
  destruct ev; try exact IH. by apply HP in Hev.
Qed.

Lemma runs_epilogue w options ctx job err : runs (epilogue w options ctx job err) = [].
Proof. unfold epilogue. by destruct (honey_Enabled w). Qed.

Lemma steps_trace_runs {A} (evs_of : nat → A → option error → trace)
    (c : Context) (spec : nat → A → CommandSpec) :
  (∀ i x r, runs (evs_of i x r) = [(c, spec i x, r)]) →
  ∀ i l evs failure,
    steps_trace evs_of i l evs failure →
    ∃ k,
      runs evs
      = ((λ sp, (c, sp, None)) <$> take k (imap (λ j, spec (i + j)) l))
        ++ match failure with
           | Some e =>
             (λ sp, (c, sp, Some e)) <$> option_list (imap (λ j, spec (i + j)) l !! k)
           | None => []
           end
      ∧ match failure with Some _ => k < length l | None => k = length l end.
Proof.
  intros Hruns i l evs failure. induction 1 as [i|i x l e|i x l evs failure _ IH].
  - by exists 0.
  - exists 0. rewrite Hruns. cbn. rewrite Nat.add_0_r. split; [done|lia].
  - destruct IH as (k & IH & Hk). exists (S k).
    rewrite runs_app, Hruns, IH. cbn [imap take fmap list_fmap app lookup list_lookup].
    rewrite Nat.add_0_r.
    assert (imap ((λ j, spec (i + j)) ∘ S) l = imap (λ j, spec (S i + j)) l) as ->.
    { apply imap_ext. intros j y _. cbn. by rewrite Nat.add_succ_r. }
    split; [done|]. destruct failure; cbn; lia.
Qed.

Lemma steps_trace_runs_0 {A} (evs_of : nat → A → option error → trace)
    (c : Context) (spec : nat → A → CommandSpec) l evs failure :
  (∀ i x r, runs (evs_of i x r) = [(c, spec i x, r)]) →
  steps_trace evs_of 0 l evs failure →
  match failure with
  | Some e =>
    ∃ k sp, imap spec l !! k = Some sp
            ∧ runs evs = ((λ sp, (c, sp, None)) <$> take k (imap spec l))
                         ++ [(c, sp, Some e)]
  | None => runs evs = (λ sp, (c, sp, None)) <$> imap spec l
  end.
Proof.
  intros Hruns Hst.
  destruct (steps_trace_runs evs_of c spec Hruns 0 l evs failure Hst) as (k & Hk & Hlen).
  change (λ j, spec (0 + j)) with spec in Hk. destruct failure as [e|].
  - destruct (lookup_lt_is_Some_2 (imap spec l) k) as [sp Hsp];
      [by rewrite length_imap|].
    exists k, sp. split; [done|]. by rewrite Hk, Hsp.
  - rewrite Hk, app_nil_r, take_ge; [done|]. rewrite length_imap. lia.
Qed.

(** Computes the [Run] calls of a run from its pieces. *)
Ltac runs_of_run :=
  unfold prepared, prologue, named, settingUp;
  rewrite ?runs_app, ?runs_epilogue;
  repeat match goal with
         | H : Forall is_write ?l |- context [runs ?l] =>
           rewrite (runs_nil_Forall is_write l (λ _ _ _ (F : False), F) H)
         end;
  cbn [runs omap list_omap jobInfo app].

(** What [Handle] puts into a command is what the step stands for: the
    script named by a docker command is the one written for its step. *)
Lemma plan_declared (job : Job) : plan job = declared_calls job.
Proof.
  unfold plan, declared_calls. f_equal. apply imap_ext. intros i dockerStep Hi.
  unfold dockerStepCommand, docker_step_call, allScriptNames, scriptNamesFrom.
  apply lookup_lt_Some in Hi. by rewrite list_lookup_fmap, lookup_seq_lt.
Qed.

(** C5 as stated fails when [Teardown] fails after a step has failed: the
    src-cli step of the job fails once its two docker steps have run, no
    further step is run, and [Handle] returns not the wrapped error of the step
    but the multierror of it and the teardown error. *)
Lemma step_error_aggregated_with_teardown :
  (λ run, (Key run.1.2, run.2))
    <$> runs (Handle failingWorld (sampleOptions true 2) Incoming sampleJob).2
  = [("step.docker.0", None); ("step.docker.1", None);
     ("step.src.0", Some (New "exit status 1"))]
  ∧ (Handle failingWorld (sampleOptions true 2) Incoming sampleJob).1
    = Some (MultiError
              [Wrap (New "exit status 1") "failed to perform src-cli step";
               New "ignite: failed to stop VM"])
  ∧ (Handle failingWorld (sampleOptions true 2) Incoming sampleJob).1
    ≠ Some (Wrap (New "exit status 1") "failed to perform src-cli step").
Proof.
  split; [|split].
  - vm_compute. reflexivity.
  - vm_compute. reflexivity.
  - vm_compute. discriminate.
Qed.

(** C5. Once [Setup] has succeeded, the [Run] calls of a job are, in this
    order, the calls its docker steps stand for in declared order and then
    those of its src-cli steps in declared order, one call each, under the
    job's context, up to the first call that returns an error: every step is
    run when none fails, and no step is run after one that fails. [Teardown]
    is called after the last [Run]. The error in flight is the error of the
    failed step wrapped with the message of its stage, none when no step
    failed; [Handle] returns it when [Teardown] succeeds, and the multierror of
    it and the teardown error when [Teardown] fails. *)
Theorem steps_run_in_order (w : World) (options : Options) (ctx : Context)
    (job : Job) (c : Context) (images : list string) :
  EvSetup c images None ∈ (Handle w options ctx job).2 →
  ∃ (k : nat) (failure : option (CommandSpec * error))
    (pre : trace) (teardown : option error) (post : trace),
    (Handle w options ctx job).2 = pre ++ EvTeardown Background teardown :: post
    ∧ runs post = []
    ∧ runs pre
      = ((λ sp, (jobContext options ctx, sp, None)) <$> take k (declared_calls job))
        ++ match failure with
           | Some (sp, e) => [(jobContext options ctx, sp, Some e)]
           | None => []
           end
    ∧ match failure with
      | Some (sp, e) =>
        declared_calls job !! k = Some sp
        ∧ (handleReturn w options ctx job).1
          = Some (wrapError w options e (step_message job k))
        ∧ (Handle w options ctx job).1
          = afterTeardown (Some (wrapError w options e (step_message job k))) teardown
      | None =>
        k = length (declared_calls job)
        ∧ (handleReturn w options ctx job).1 = None
        ∧ (Handle w options ctx job).1 = afterTeardown None teardown
      end.
Proof.
  intros Hsetup. rewrite <- plan_declared. handle_cases w options ctx job.
  1-5: by elem_of_run Hsetup.
  - apply (steps_trace_runs_0 _ (jobContext options ctx)
             (dockerStepCommand (allScriptNames job))) in H2
      as (k & sp & Hsp & Hdocker); [|done].
    exists k, (Some (sp, e)),
           (prepared w options ctx job workingDirectory ++ writes
            ++ named options workingDirectory vmNameSuffix ++ scripts
            ++ settingUp w options ctx job None ++ docker ++ []), teardown,
           ([EvNameSetRemove (vmName options vmNameSuffix);
             EvRemoveAll workingDirectory] ++ epilogue w options ctx job err0).
    assert (k < length (DockerSteps job)) as Hk.
    { apply lookup_lt_Some in Hsp. by rewrite length_imap in Hsp. }
    split; [by rewrite <- ?app_assoc|]. split; [by runs_of_run|].
    split; [|split; [|split]].
    + runs_of_run. rewrite Hdocker. unfold plan.
      rewrite take_app_le by (rewrite length_imap; lia). by rewrite app_nil_r.
    + unfold plan. rewrite lookup_app_l; [done|]. by rewrite length_imap.
    + unfold step_message. by rewrite decide_True.
    + unfold step_message. by rewrite decide_True.
  - apply (steps_trace_runs_0 _ (jobContext options ctx)
             (dockerStepCommand (allScriptNames job))) in H2 as Hdocker; [|done].
    pose proof (steps_trace_runs_0 (cli_events job (jobContext options ctx))
                  (jobContext options ctx) cliStepCommand
                  _ _ _ (λ _ _ _, eq_refl) H3) as Hcli.
    destruct cliFailure as [e|].
    + destruct Hcli as (k & sp & Hsp & Hcli).
      exists (length (DockerSteps job) + k), (Some (sp, e)),
             (prepared w options ctx job workingDirectory ++ writes
              ++ named options workingDirectory vmNameSuffix ++ scripts
              ++ settingUp w options ctx job None ++ docker ++ cli), teardown,
             ([EvNameSetRemove (vmName options vmNameSuffix);
               EvRemoveAll workingDirectory] ++ epilogue w options ctx job err0).
      split; [by rewrite <- ?app_assoc|]. split; [by runs_of_run|].
      split; [|split; [|split]].
      * runs_of_run. rewrite Hdocker, Hcli. unfold plan.
        rewrite take_app_ge, length_imap by (rewrite length_imap; lia).
        replace (length (DockerSteps job) + k - length (DockerSteps job)) with k by lia.
        by rewrite fmap_app, <- !app_assoc.
      * unfold plan. rewrite lookup_app_r, length_imap by (rewrite length_imap; lia).
        by replace (length (DockerSteps job) + k - length (DockerSteps job)) with k by lia.
      * unfold step_message. by rewrite decide_False by lia.
      * unfold step_message. by rewrite decide_False by lia.
    + exists (length (plan job)), None,
             (prepared w options ctx job workingDirectory ++ writes
              ++ named options workingDirectory vmNameSuffix ++ scripts
              ++ settingUp w options ctx job None ++ docker ++ cli), teardown,
             ([EvNameSetRemove (vmName options vmNameSuffix);
               EvRemoveAll workingDirectory] ++ epilogue w options ctx job err0).
      split; [by rewrite <- ?app_assoc|]. split; [by runs_of_run|].
      split; [|done].
      runs_of_run. rewrite Hdocker, Hcli, take_ge by done.
      unfold plan. rewrite fmap_app. by rewrite ?app_nil_r.
Qed.

Lemma steps_run_in_order_witness :
  ∃ (k : nat) (pre : trace) (teardown : option error) (post : trace),
    (Handle (sampleWorld (Ok [])) (sampleOptions true 2) Incoming sampleJob).2
    = pre ++ EvTeardown Background teardown :: post
    ∧ runs pre
      = (λ sp, (jobContext (sampleOptions true 2) Incoming, sp, None))
          <$> take k (declared_calls sampleJob)
    ∧ k = 3.
Proof.
  destruct (steps_run_in_order (sampleWorld (Ok [])) (sampleOptions true 2)
              Incoming sampleJob (jobContext (sampleOptions true 2) Incoming)
              ["alpine:3"])
    as (k & failure & pre & teardown & post & Heq & _ & Hruns & Hfail).
  - vm_compute. repeat first [apply list_elem_of_here | apply list_elem_of_further].
  - destruct failure as [[sp e]|].
    + destruct Hfail as (_ & Hret & _). vm_compute in Hret. discriminate Hret.
    + destruct Hfail as (Hk & _). exists k, pre, teardown, post.
      split; [exact Heq|]. split; [|exact Hk].
      rewrite Hruns. apply app_nil_r.
Defined.

(** ** The deadline *)

Lemma steps_trace_stage {A} (evs_of : nat → A → option error → trace)
    (stage : string) i l evs failure :
  (∀ i x r ev e m, ev ∈ evs_of i x r → stage_of ev = Some (e, m) →
                   r = Some e ∧ m = stage) →
  steps_trace evs_of i l evs failure →
  ∀ ev e m, ev ∈ evs → stage_of ev = Some (e, m) → failure = Some e ∧ m = stage.
Proof.
  intros Hturn. induction 1 as [i|i x l e'|i x l evs failure _ IH]; intros ev e m Hin Hst.
  - by apply elem_of_nil in Hin.
  - eapply Hturn; eauto.
  - apply elem_of_app in Hin as [Hin|Hin]; [|by eapply IH].
    by destruct (Hturn _ _ _ _ _ _ Hin Hst).
Qed.

Lemma docker_stage job c names i l evs failure ev e m :
  steps_trace (docker_events job c names) i l evs failure →
  ev ∈ evs → stage_of ev = Some (e, m) →
  failure = Some e ∧ m = "failed to perform docker step".
Proof.
  intros Hst. revert ev e m. eapply steps_trace_stage; [|done].
  intros ? ? ? ? ? ? Hin Hs. unfold docker_events in Hin.
  rewrite !elem_of_cons, elem_of_nil in Hin. destruct_or! Hin; subst; try done.
  cbn in Hs. destruct r; by inversion Hs.
Qed.

Lemma cli_stage job c i l evs failure ev e m :
  steps_trace (cli_events job c) i l evs failure →
  ev ∈ evs → stage_of ev = Some (e, m) →
  failure = Some e ∧ m = "failed to perform src-cli step".
Proof.
  intros Hst. revert ev e m. eapply steps_trace_stage; [|done].
  intros ? ? ? ? ? ? Hin Hs. unfold cli_events in Hin.
  rewrite !elem_of_cons, elem_of_nil in Hin. destruct_or! Hin; subst; try done.
  cbn in Hs. destruct r; by inversion Hs.
Qed.

Lemma write_no_stage ev : is_write ev → stage_of ev = None.
Proof. by destruct ev. Qed.

Lemma wrapError_deadline w options e stage :
  errors_Is_DeadlineExceeded e = true →
  wrapError w options e stage = Wrap (deadlineError w options) stage.
Proof. intros He. unfold wrapError. by rewrite He. Qed.

(** Finds the failed call [ev] of stage [Hstage] among the pieces of a run. *)
Ltac stage_cases Hev Hstage :=
  elem_of_run Hev;
  try (subst; cbn in Hstage; discriminate);
  try match goal with
      | Hw : is_write ?ev |- _ =>
        apply write_no_stage in Hw; rewrite Hw in Hstage; discriminate
      end.

(** C4, as the code has it. When a stage of [Handle] - workspace preparation,
    [Setup], a docker step or a src-cli step - fails with an error for which
    [errors.Is(err, context.DeadlineExceeded)] holds, the error in flight is
    "job exceeded maximum execution time of <duration>" wrapped with the
    message of that stage. [Handle] returns that very error unless [Teardown]
    fails as well; then it returns the multierror of that error followed by
    the teardown error. *)
Theorem deadline_error_reported (w : World) (options : Options) (ctx : Context)
    (job : Job) (ev : event) (e : error) (stage : string) :
  ev ∈ (Handle w options ctx job).2 →
  stage_of ev = Some (e, stage) →
  errors_Is_DeadlineExceeded e = true →
  (handleReturn w options ctx job).1 = Some (Wrap (deadlineError w options) stage)
  ∧ (((∀ c teardownErr, EvTeardown c (Some teardownErr) ∉ (Handle w options ctx job).2)
      ∧ (Handle w options ctx job).1 = Some (Wrap (deadlineError w options) stage))
     ∨ (∃ teardownErr,
          EvTeardown Background (Some teardownErr) ∈ (Handle w options ctx job).2
          ∧ (Handle w options ctx job).1
            = Some (MultiError (Wrap (deadlineError w options) stage
                                :: multierror_Errors teardownErr)))).
Proof.
  intros Hev Hstage Hdeadline. handle_cases w options ctx job.
  - stage_cases Hev Hstage. subst. cbn in Hstage. inversion Hstage; subst.
    subst err0. rewrite wrapError_deadline by done. split; [done|]. left.
    split; [|done]. intros c te Htd. by elem_of_run Htd.
  - stage_cases Hev Hstage.
  - stage_cases Hev Hstage.
  - stage_cases Hev Hstage.
  - stage_cases Hev Hstage. subst. cbn in Hstage. inversion Hstage; subst.
    subst err0. rewrite wrapError_deadline by done. split; [done|]. left.
    split; [|done]. intros c te Htd. by elem_of_run Htd.
  - stage_cases Hev Hstage.
    destruct (docker_stage _ _ _ _ _ _ _ _ _ _ H2 Hev Hstage) as [[= ->] ->].
    subst err0. unfold inflight, afterTeardown. rewrite wrapError_deadline by done.
    split; [done|]. destruct teardown as [teardownErr|].
    + right. exists teardownErr. split; [|done].
      rewrite !elem_of_app. do 7 right. left. apply list_elem_of_here.
    + left. split; [|done]. intros c te Htd. by elem_of_run Htd.
  - stage_cases Hev Hstage.
    + by destruct (docker_stage _ _ _ _ _ _ _ _ _ _ H2 Hev Hstage).
    + destruct (cli_stage _ _ _ _ _ _ _ _ _ H3 Hev Hstage) as [-> ->].
      subst err0. unfold inflight, afterTeardown. cbn [fmap option_fmap option_map].
      rewrite wrapError_deadline by done.
      split; [done|]. destruct teardown as [teardownErr|].
      * right. exists teardownErr. split; [|done].
        rewrite !elem_of_app. do 7 right. left. apply list_elem_of_here.
      * left. split; [|done]. intros c te Htd. by elem_of_run Htd.
Qed.

Lemma deadline_error_reported_witness :
  (handleReturn deadlineWorld (sampleOptions true 2) Incoming sampleJob).1
  = Some (Wrap (deadlineError deadlineWorld (sampleOptions true 2))
               "failed to perform docker step").
Proof.
  refine (proj1 (deadline_error_reported deadlineWorld (sampleOptions true 2)
                   Incoming sampleJob
                   (EvRun (jobContext (sampleOptions true 2) Incoming)
                          (dockerStepCommand (allScriptNames sampleJob) 1
                             (mkDockerStep "alpine:3" ["pwd"] "sub" ["A=b"]))
                          (Some (Wrap DeadlineExceeded "docker run")))
                   (Wrap DeadlineExceeded "docker run")
                   "failed to perform docker step" _ _ _)).
  - vm_compute. repeat first [apply list_elem_of_here | apply list_elem_of_further].
  - reflexivity.
  - reflexivity.
Defined.

(** C4 as stated fails: in that run the failed stage's error is a deadline
    error, yet what [Handle] returns is not the wrapped "exceeded maximum
    execution time" error but a multierror that holds it together with the
    teardown error. *)
Lemma deadline_error_aggregated_with_teardown :
  EvRun (jobContext (sampleOptions true 2) Incoming)
        (dockerStepCommand (allScriptNames sampleJob) 1
           (mkDockerStep "alpine:3" ["pwd"] "sub" ["A=b"]))
        (Some (Wrap DeadlineExceeded "docker run"))
  ∈ (Handle deadlineWorld (sampleOptions true 2) Incoming sampleJob).2
  ∧ errors_Is_DeadlineExceeded (Wrap DeadlineExceeded "docker run") = true
  ∧ (Handle deadlineWorld (sampleOptions true 2) Incoming sampleJob).1
    = Some (MultiError
              [Wrap (Errorf "job exceeded maximum execution time of 5s")
                    "failed to perform docker step";
               New "ignite: failed to stop VM"])
  ∧ (Handle deadlineWorld (sampleOptions true 2) Incoming sampleJob).1
    ≠ Some (Wrap (Errorf "job exceeded maximum execution time of 5s")
                 "failed to perform docker step").
Proof.
  split; [|split; [|split]].
  - vm_compute. repeat first [apply list_elem_of_here | apply list_elem_of_further].
  - reflexivity.
  - vm_compute. reflexivity.
  - vm_compute. discriminate.
Qed.

(** ** The guard on virtual machine files *)

(** C2 fails on the code. The job holds the file ["../workspace-42-evil/x"].
    Joined to the working directory ["/tmp/workspace-42"] and resolved, its
    path is ["/tmp/workspace-42-evil/x"], which lies outside the working
    directory, in a sibling directory whose name continues that of the working
    directory. The guard compares the two strings, finds that the path begins
    with the characters of the working directory and lets it through:
    [Handle] writes the file outside the working directory and returns no
    error. *)
Example sibling_directory_is_written :
  VirtualMachineFiles siblingJob !! "../workspace-42-evil/x" = Some "y"
  ∧ EvPrepareWorkspace (jobContext (sampleOptions true 2) Incoming)
                       (RepositoryName siblingJob) (Commit siblingJob)
                       (Ok "/tmp/workspace-42")
    ∈ (Handle (sampleWorld (Ok [])) (sampleOptions true 2) Incoming siblingJob).2
  ∧ filepath_Abs (Ok "/") (filepath_Join ["/tmp/workspace-42"; "../workspace-42-evil/x"])
    = Ok "/tmp/workspace-42-evil/x"
  ∧ within "/tmp/workspace-42" "/tmp/workspace-42-evil/x" = false
  ∧ strings_HasPrefix "/tmp/workspace-42-evil/x" "/tmp/workspace-42" = true
  ∧ (Handle (sampleWorld (Ok [])) (sampleOptions true 2) Incoming siblingJob).1 = None
  ∧ EvWriteFile "/tmp/workspace-42-evil/x" "y" None
    ∈ (Handle (sampleWorld (Ok [])) (sampleOptions true 2) Incoming siblingJob).2.
Proof.
  split; [|split; [|split; [|split; [|split; [|split]]]]].
  - vm_compute. reflexivity.
  - vm_compute. repeat first [apply list_elem_of_here | apply list_elem_of_further].
  - vm_compute. reflexivity.
  - vm_compute. reflexivity.
  - vm_compute. reflexivity.
  - vm_compute. reflexivity.
  - vm_compute. repeat first [apply list_elem_of_here | apply list_elem_of_further].
Qed.

(** The guard is checked file by file, inside the loop that writes: when it
    does refuse a file, ["../escape"] here, the files the loop visited before
    it, ["a"] here, have been written already. *)
Example escape_detected_after_a_write :
  VirtualMachineFiles escapeJob !! "../escape" = Some "y"
  ∧ filepath_Abs (Ok "/") (filepath_Join ["/tmp/workspace-42"; "../escape"])
    = Ok "/tmp/escape"
  ∧ within "/tmp/workspace-42" "/tmp/escape" = false
  ∧ (Handle (sampleWorld (Ok [])) (sampleOptions true 2) Incoming escapeJob).1
    = Some (Errorf "refusing to write outside of working directory")
  ∧ EvWriteFile "/tmp/workspace-42/a" "x" None
    ∈ (Handle (sampleWorld (Ok [])) (sampleOptions true 2) Incoming escapeJob).2.
Proof.
  split; [|split; [|split; [|split]]].
  - vm_compute. reflexivity.
  - vm_compute. reflexivity.
  - vm_compute. reflexivity.
  - vm_compute. reflexivity.
  - vm_compute. repeat first [apply list_elem_of_here | apply list_elem_of_further].
Qed.

(** ** Redaction *)

Lemma foldl_insert_lookup (l : list (string * string)) :
  ∀ (c : gmap string string) k,
    NoDup l.*1 →
    foldl (λ c kv, <[kv.1 := kv.2]> c) c l !! k
    = match (list_to_map l : gmap string string) !! k with
      | Some v => Some v
      | None => c !! k
      end.
Proof.
  induction l as [|[k' v'] l IH]; intros c k Hnd; [done|].
  apply NoDup_cons in Hnd as [Hk' Hnd]. cbn [foldl fst snd fmap list_fmap].
  rewrite IH by done. cbn [list_to_map foldr uncurry fst snd].
  destruct (decide (k = k')) as [->|Hne].
  - rewrite (not_elem_of_list_to_map_1 l k') by done.
    by rewrite !lookup_insert_eq.
  - by rewrite !lookup_insert_ne by done.
Qed.

Lemma rangeMap_NoDup w (m : gmap string string) :
  WorldOK w → NoDup (rangeMap w m).*1.
Proof.
  intros Hw. rewrite (rangeMap_perm w Hw). apply NoDup_fst_map_to_list.
Qed.

Lemma list_to_map_rangeMap w (m : gmap string string) :
  WorldOK w → list_to_map (rangeMap w m) = m.
Proof.
  intros Hw. rewrite <- (list_to_map_to_list m) at 2.
  apply list_to_map_proper; [by apply rangeMap_NoDup|apply (rangeMap_perm w Hw)].
Qed.

(** What [union] holds for a key: the value of [b] if [b] has the key, else
    that of [a]. *)
Lemma union_lookup w (a b : gmap string string) k :
  WorldOK w →
  union w a b !! k = match b !! k with Some v => Some v | None => a !! k end.
Proof.
  intros Hw. unfold union.
  rewrite !foldl_insert_lookup by (by apply rangeMap_NoDup).
  rewrite !list_to_map_rangeMap, lookup_empty by done.
  by destruct (b !! k), (a !! k).
Qed.

(** The first call of every run hands the logger the union of the redacted
    values. *)
Lemma Handle_starts_with_logger w options ctx job :
  ∃ rest,
    (Handle w options ctx job).2
    = EvNewLogger (union w (OptRedactedValues options) (RedactedValues job)) :: rest.
Proof.
  handle_cases w options ctx job; unfold prepared, prologue; cbn [app]; by eexists.
Qed.

(** C9 as stated fails: the instance-wide redacted values bind ["hunter2"] to
    one replacement and the job binds it to another; the logger is given the
    job's pair only, not the instance-wide one. *)
Lemma instance_wide_pair_overridden :
  OptRedactedValues (sampleOptions true 2) !! "hunter2"
  = Some "${EXECUTOR_FRONTEND_PASSWORD}"
  ∧ ∃ redacted rest,
      (Handle (sampleWorld (Ok [])) (sampleOptions true 2) Incoming clashJob).2
      = EvNewLogger redacted :: rest
      ∧ redacted !! "hunter2" = Some "${JOB_TOKEN}"
      ∧ redacted !! "hunter2" ≠ Some "${EXECUTOR_FRONTEND_PASSWORD}".
Proof.
  split; [by vm_compute|].
  destruct (Handle_starts_with_logger (sampleWorld (Ok [])) (sampleOptions true 2)
              Incoming clashJob) as [rest Hrest].
  eexists _, rest. split; [exact Hrest|].
  rewrite union_lookup by apply exampleWorld_OK. split; by vm_compute.
Qed.

(** C9, as the code has it. The first call of [Handle], before any step runs,
    constructs the logger with the union of the instance-wide and the job's
    redacted values: every name of either map is in it, with the job's value
    where the job has the name and the instance-wide value otherwise. *)
Theorem logger_given_merged_redactions (w : World) (options : Options)
    (ctx : Context) (job : Job) :
  WorldOK w →
  ∃ redacted rest,
    (Handle w options ctx job).2 = EvNewLogger redacted :: rest
    ∧ runs (Handle w options ctx job).2 = runs rest
    ∧ redacted = union w (OptRedactedValues options) (RedactedValues job)
    ∧ (∀ k, is_Some (redacted !! k)
            ↔ is_Some (OptRedactedValues options !! k)
              ∨ is_Some (RedactedValues job !! k))
    ∧ (∀ k v, RedactedValues job !! k = Some v → redacted !! k = Some v)
    ∧ (∀ k v, OptRedactedValues options !! k = Some v →
              RedactedValues job !! k = None → redacted !! k = Some v).
Proof.
  intros Hw. destruct (Handle_starts_with_logger w options ctx job) as [rest Hrest].
  eexists _, rest. split; [exact Hrest|]. split; [by rewrite Hrest|].
  split; [done|]. split; [|split].
  - intros k. rewrite union_lookup by done.
    destruct (RedactedValues job !! k), (OptRedactedValues options !! k);
      split; eauto; intros [[]|[]]; done.
  - intros k v Hk. by rewrite union_lookup, Hk.
  - intros k v Hk Hnone. by rewrite union_lookup, Hnone.
Qed.

Lemma logger_given_merged_redactions_witness :
  ∃ redacted rest,
    (Handle (sampleWorld (Ok [])) (sampleOptions true 2) Incoming sampleJob).2
    = EvNewLogger redacted :: rest
    ∧ redacted !! "s3cr3t" = Some "${TOKEN}"
    ∧ redacted !! "hunter2" = Some "${EXECUTOR_FRONTEND_PASSWORD}".
Proof.
  destruct (logger_given_merged_redactions (sampleWorld (Ok [])) (sampleOptions true 2)
              Incoming sampleJob (exampleWorld_OK _ _ _))
    as (redacted & rest & Heq & _ & _ & _ & Hjob & Hinstance).
  exists redacted, rest. split; [exact Heq|]. split.
  - apply Hjob. vm_compute. reflexivity.
  - apply Hinstance; vm_compute; reflexivity.
Defined.

(** ** The images handed to Setup *)

Lemma elem_of_imageMap_fold (steps : list DockerStep) : ∀ (m : gset string) image,
  image ∈ foldl (λ m dockerStep, {[Image dockerStep]} ∪ m) m steps
  ↔ image ∈ m ∨ image ∈ Image <$> steps.
Proof.
  induction steps as [|dockerStep steps IH]; intros m image; cbn [foldl].
  - rewrite fmap_nil, elem_of_nil. tauto.
  - rewrite IH, fmap_cons, elem_of_cons. set_solver.
Qed.

Lemma elem_of_imageMap job image :
  image ∈ imageMap job ↔ image ∈ Image <$> DockerSteps job.
Proof. unfold imageMap. rewrite elem_of_imageMap_fold. set_solver. Qed.

Lemma foldl_append (l : list string) : ∀ names,
  foldl (λ names image, names ++ [image]) names l = names ++ l.
Proof.
  induction l as [|x l IH]; intros names; cbn [foldl].
  - by rewrite app_nil_r.
  - by rewrite IH, <- app_assoc.
Qed.

Lemma imageNames_Permutation w job :
  WorldOK w → imageNames w job ≡ₚ elements (imageMap job).
Proof.
  intros Hw. unfold imageNames, sort_Strings. fold (imageMap job).
  by rewrite merge_sort_Permutation, foldl_append, (rangeSet_perm w Hw).
Qed.

Lemma imageNames_Sorted w job : Sorted String.le (imageNames w job).
Proof. apply (Sorted_merge_sort String.le). Qed.

Lemma imageNames_NoDup w job : WorldOK w → NoDup (imageNames w job).
Proof.
  intros Hw. rewrite (imageNames_Permutation w job Hw). apply NoDup_elements.
Qed.

Lemma elem_of_imageNames w job image :
  WorldOK w → image ∈ imageNames w job ↔ image ∈ Image <$> DockerSteps job.
Proof.
  intros Hw. by rewrite (imageNames_Permutation w job Hw), elem_of_elements,
                        elem_of_imageMap.
Qed.

(** The list depends on the set of images only. *)
Lemma imageNames_set w w' job job' :
  WorldOK w → WorldOK w' →
  (∀ image, image ∈ Image <$> DockerSteps job' ↔ image ∈ Image <$> DockerSteps job) →
  imageNames w' job' = imageNames w job.
Proof.
  intros Hw Hw' Hsame.
  apply (Sorted_unique String.le); [apply imageNames_Sorted..|].
  apply NoDup_Permutation; [by apply imageNames_NoDup..|].
  intros image. by rewrite !elem_of_imageNames.
Qed.

(** C6. The list of image names that [Setup] receives is the list computed
    from the job's docker steps: it holds exactly the images the steps refer
    to, each once, in ascending order of Go's string comparison; it is the
    same for any job whose steps refer to the same set of images, in whatever
    order and however often; two docker steps with one image give one name. *)
Theorem setup_receives_distinct_sorted_images (w : World) (options : Options)
    (ctx : Context) (job : Job) (c : Context) (images : list string)
    (r : option error) :
  WorldOK w →
  EvSetup c images r ∈ (Handle w options ctx job).2 →
  images = imageNames w job
  ∧ (∀ image, image ∈ images
              ↔ ∃ dockerStep, dockerStep ∈ DockerSteps job ∧ Image dockerStep = image)
  ∧ NoDup images
  ∧ Sorted String.le images
  ∧ (∀ w' job',
       WorldOK w' →
       (∀ image, image ∈ Image <$> DockerSteps job'
                 ↔ image ∈ Image <$> DockerSteps job) →
       imageNames w' job' = images)
  ∧ (∀ step1 step2,
       DockerSteps job = [step1; step2] → Image step1 = Image step2 →
       images = [Image step1]).
Proof.
  intros Hw Hsetup.
  assert (images = imageNames w job) as ->.
  { handle_cases w options ctx job; elem_of_run Hsetup; congruence. }
  split; [done|]. split; [|split; [|split; [|split]]].
  - intros image. rewrite elem_of_imageNames, list_elem_of_fmap by done.
    naive_solver.
  - by apply imageNames_NoDup.
  - apply imageNames_Sorted.
  - intros w' job' Hw' Hsame. by apply imageNames_set.
  - intros step1 step2 Hsteps Himage.
    apply Permutation_singleton_r.
    rewrite (imageNames_Permutation w job Hw).
    assert (imageMap job = {[Image step1]}) as ->; [|by rewrite elements_singleton].
    unfold imageMap. rewrite Hsteps. cbn [foldl]. rewrite Himage. set_solver.
Qed.

Lemma setup_receives_distinct_sorted_images_witness :
  ∃ images,
    EvSetup (jobContext (sampleOptions true 2) Incoming) images None
    ∈ (Handle (sampleWorld (Ok [])) (sampleOptions true 2) Incoming sampleJob).2
    ∧ images = ["alpine:3"].
Proof.
  assert (Hin : EvSetup (jobContext (sampleOptions true 2) Incoming) ["alpine:3"] None
                ∈ (Handle (sampleWorld (Ok [])) (sampleOptions true 2)
                          Incoming sampleJob).2).
  { vm_compute. repeat first [apply list_elem_of_here | apply list_elem_of_further]. }
  destruct (setup_receives_distinct_sorted_images
              (sampleWorld (Ok [])) (sampleOptions true 2) Incoming sampleJob
              _ _ _ (exampleWorld_OK _ _ _) Hin) as (_ & _ & _ & _ & _ & Honce).
  exists ["alpine:3"]. split; [exact Hin|].
  exact (Honce _ _ eq_refl eq_refl).
Defined.

(** ** Scripts *)

Lemma append_cons (c : ascii) (s1 s2 : string) :
  String c s1 +:+ s2 = String c (s1 +:+ s2).
Proof. reflexivity. Qed.

Lemma append_empty (s : string) : "" +:+ s = s.
Proof. reflexivity. Qed.

Lemma string_app_assoc (s1 s2 s3 : string) :
  (s1 +:+ s2) +:+ s3 = s1 +:+ s2 +:+ s3.
Proof.
  induction s1 as [|c s1 IH]; [done|]. by rewrite !append_cons, IH.
Qed.

Lemma join_lines (commands : list string) :
  commands ≠ [] →
  strings_Join commands newline +:+ newline = script_lines commands.
Proof.
  unfold strings_Join. induction commands as [|c [|c' commands] IH]; intros Hne.
  - done.
  - reflexivity.
  - cbn [String.concat script_lines foldr] in *.
    rewrite !string_app_assoc. rewrite IH by done. done.
Qed.

Lemma buildScript_content dockerStep :
  buildScript dockerStep
  = scriptPreamble +:+ newline +:+ newline +:+ script_lines (Commands dockerStep).
Proof.
  unfold buildScript, strings_Join. destruct (Commands dockerStep) as [|c commands] eqn:Hc.
  - cbn [app String.concat script_lines foldr]. by rewrite !string_app_assoc.
  - rewrite <- (join_lines (c :: commands)) by done. unfold strings_Join.
    cbn [app String.concat]. by rewrite !string_app_assoc.
Qed.

Lemma string_of_uint_decimal d :
  string_forall decimal_char (NilEmpty.string_of_uint d) = true.
Proof. induction d; cbn; done. Qed.

Lemma fmt_d_decimal z : string_forall decimal_char (fmt_d z) = true.
Proof.
  unfold fmt_d, NilZero.string_of_int, NilZero.string_of_uint.
  destruct (Z.to_int z) as [d|d]; destruct d; cbn -[NilEmpty.string_of_uint];
    try reflexivity; apply string_of_uint_decimal.
Qed.

Lemma fmt_d_inj z z' : fmt_d z = fmt_d z' → z = z'.
Proof.
  unfold fmt_d. intros Heq. apply DecimalZ.to_int_inj.
  assert (Hnn : ∀ z, Z.to_int z ≠ Decimal.Pos Decimal.Nil
                     ∧ Z.to_int z ≠ Decimal.Neg Decimal.Nil).
  { intros [|p|p]; cbn; split; try discriminate;
      intros [= Hp]; by apply Unsigned.to_uint_nonnil in Hp. }
  apply (f_equal NilZero.int_of_string) in Heq.
  rewrite !NilZero.isi in Heq by apply Hnn. by inversion Heq.
Qed.

(** Two strings that agree after a separator which neither has before it
    agree before it and after it. *)
Lemma append_separator_inj (P : ascii → bool) (c : ascii) :
  P c = false →
  ∀ s1 s2 r1 r2,
    string_forall P s1 = true → string_forall P s2 = true →
    s1 +:+ String c r1 = s2 +:+ String c r2 → s1 = s2 ∧ r1 = r2.
Proof.
  intros Hc. induction s1 as [|a s1 IH]; intros [|a' s2] r1 r2 H1 H2 Heq;
    rewrite ?append_cons, ?append_empty in Heq; cbn in H1, H2.
  - by inversion Heq.
  - inversion Heq; subst. by rewrite Hc in H2.
  - inversion Heq; subst. by rewrite Hc in H1.
  - inversion Heq; subst. apply andb_prop in H1 as [_ H1], H2 as [_ H2].
    destruct (IH _ _ _ H1 H2 H3) as [-> ->]. done.
Qed.

Lemma scriptNameFromJobStep_inj job job' i i' :
  scriptNameFromJobStep job i = scriptNameFromJobStep job' i' →
  ID job = ID job' ∧ i = i'.
Proof.
  unfold scriptNameFromJobStep. intros Heq.
  rewrite !(append_cons _ ""), !append_empty in Heq.
  apply (append_separator_inj decimal_char "." eq_refl) in Heq
    as [Hid Heq]; [|apply fmt_d_decimal..].
  apply (append_separator_inj decimal_char "_" eq_refl) in Heq
    as [Hi _]; [|apply fmt_d_decimal..].
  split; by apply fmt_d_inj.
Qed.

Lemma ReplaceAll_no_separator repositoryName :
  string_forall (λ c, negb (Ascii.eqb c "/"))
                (strings_ReplaceAll repositoryName "/" "_") = true.
Proof.
  induction repositoryName as [|c s IH]; [done|]. cbn [strings_ReplaceAll].
  destruct (Ascii.eqb c "/") eqn:Hc; cbn; [done|]. by rewrite Hc.
Qed.

Lemma steps_trace_all {A} (evs_of : nat → A → option error → trace) i l evs failure :
  steps_trace evs_of i l evs failure →
  failure = None →
  ∀ j x ev, l !! j = Some x → ev ∈ evs_of (i + j) x None → ev ∈ evs.
Proof.
  induction 1 as [i|i x l e|i x l evs failure _ IH]; intros Hnone j y ev Hj Hev.
  - done.
  - done.
  - apply elem_of_app. destruct j as [|j]; cbn in Hj.
    + inversion Hj; subst. rewrite Nat.add_0_r in Hev. by left.
    + right. apply (IH Hnone j y); [done|]. by rewrite Nat.add_succ_comm.
Qed.

Lemma allScriptNames_lookup job i dockerStep :
  DockerSteps job !! i = Some dockerStep →
  allScriptNames job !! i = Some (scriptNameFromJobStep job (Z.of_nat i)).
Proof.
  intros Hi. apply lookup_lt_Some in Hi. unfold allScriptNames, scriptNamesFrom.
  by rewrite list_lookup_fmap, lookup_seq_lt.
Qed.

(** C8. For the docker step at index [i], the script is the preamble with
    [set -x], an empty line, and the commands of the step, each on its own
    line; its name is made of the job's ID, the index, the repository name
    with every slash replaced by an underscore, and the commit; jobs with
    different IDs or steps at different indices never get the same name; the
    command run for the step names that script; and when [Handle] gets as far
    as [Setup], it has written the script under that name, in the scripts
    directory of the working directory. *)
Theorem docker_step_script (w : World) (options : Options) (ctx : Context)
    (job : Job) (i : nat) (dockerStep : DockerStep) :
  DockerSteps job !! i = Some dockerStep →
  buildScript dockerStep
  = newline +:+ "set -x" +:+ newline +:+ newline +:+ newline
    +:+ script_lines (Commands dockerStep)
  ∧ scriptNameFromJobStep job (Z.of_nat i)
    = fmt_d (ID job) +:+ "." +:+ fmt_d (Z.of_nat i) +:+ "_"
      +:+ strings_ReplaceAll (RepositoryName job) "/" "_"
      +:+ "@" +:+ Commit job +:+ ".sh"
  ∧ string_forall (λ c, negb (Ascii.eqb c "/"))
                  (strings_ReplaceAll (RepositoryName job) "/" "_") = true
  ∧ (∀ job' (i' : nat),
       scriptNameFromJobStep job' (Z.of_nat i') = scriptNameFromJobStep job (Z.of_nat i) →
       ID job' = ID job ∧ i' = i)
  ∧ ScriptPath (dockerStepCommand (allScriptNames job) i dockerStep)
    = scriptNameFromJobStep job (Z.of_nat i)
  ∧ (∀ c images r,
       EvSetup c images r ∈ (Handle w options ctx job).2 →
       ∃ workingDirectory,
         EvPrepareWorkspace (jobContext options ctx) (RepositoryName job)
                            (Commit job) (Ok workingDirectory)
         ∈ (Handle w options ctx job).2
         ∧ EvWriteFile
             (filepath_Join [workingDirectory; ScriptsPath w;
                             scriptNameFromJobStep job (Z.of_nat i)])
             (buildScript dockerStep) None
           ∈ (Handle w options ctx job).2).
Proof.
  intros Hi. split; [|split; [|split; [|split; [|split]]]].
  - rewrite buildScript_content. unfold scriptPreamble.
    by rewrite !string_app_assoc.
  - reflexivity.
  - apply ReplaceAll_no_separator.
  - intros job' i' Heq. apply scriptNameFromJobStep_inj in Heq as [? ?].
    split; [done|lia].
  - cbn [dockerStepCommand ScriptPath]. by rewrite (allScriptNames_lookup job i dockerStep).
  - intros c images r Hsetup. handle_cases w options ctx job.
    1-4: by elem_of_run Hsetup.
    all: exists workingDirectory; split;
      [unfold prepared; rewrite !elem_of_app, !elem_of_cons; tauto|].
    all: rewrite !elem_of_app; do 2 right; right; left.
    all: eapply (steps_trace_all _ _ _ _ _ H1 eq_refl i dockerStep); [done|].
    all: unfold script_events; cbn [plus]; apply list_elem_of_here.
Qed.

Lemma docker_step_script_witness :
  buildScript (mkDockerStep "alpine:3" ["pwd"] "sub" ["A=b"])
  = newline +:+ "set -x" +:+ newline +:+ newline +:+ newline +:+ "pwd" +:+ newline
  ∧ scriptNameFromJobStep sampleJob 1
    = "42.1_github.com_sourcegraph_sourcegraph@deadbeef.sh".
Proof.
  destruct (docker_step_script (sampleWorld (Ok [])) (sampleOptions true 2) Incoming
              sampleJob 1 (mkDockerStep "alpine:3" ["pwd"] "sub" ["A=b"]) eq_refl)
    as (Hcontent & Hname & _).
  split; [exact Hcontent|exact Hname].
Defined.

(** * Further properties of the handler *)

(** ** PreDequeue *)

(** X1. Whatever the configuration and the VM listing answer, PreDequeue
    never returns extra dequeue arguments, never says "may dequeue" together
    with an error or a log line, never returns an error together with a log
    line, and logs at most one record, which is a warning. *)
Theorem PreDequeue_results_consistent (w : World) (options : Options) (ctx : Context) :
  let r := (PreDequeue w options ctx).1 in
  let logs := (PreDequeue w options ctx).2 in
  extraDequeueArguments r = None
  ∧ (dequeueable r = true → err r = None ∧ logs = [])
  ∧ (is_Some (err r) → dequeueable r = false ∧ logs = [])
  ∧ (logs = [] ∨ ∃ warning, logs = [warning] ∧ Lvl warning = LvlWarn
                            ∧ dequeueable r = false).
Proof.
  unfold PreDequeue. destruct (Enabled _); cbn [negb];
    [destruct (ignite_CurrentlyRunningVMs _ _ _) as [vms|e];
     [destruct (_ <? _)%Z|]|];
    cbn; repeat split;
    first [done | by intros [? ?] | by left | (right; by eexists)].
Qed.

(** X2. With Firecracker execution enabled and a number of handlers of zero
    or less, PreDequeue never lets a job be dequeued. *)
Theorem PreDequeue_without_handlers (w : World) (options : Options) (ctx : Context) :
  Enabled (OptFirecrackerOptions options) = true →
  (NumHandlers (OptWorkerOptions options) ≤ 0)%Z →
  dequeueable (PreDequeue w options ctx).1 = false.
Proof.
  intros Hen Hn. unfold PreDequeue. rewrite Hen. cbn [negb].
  destruct (ignite_CurrentlyRunningVMs _ _ _) as [vms|e]; [|done].
  destruct (_ <? _)%Z eqn:Hlt; [|done]. apply Z.ltb_lt in Hlt. lia.
Qed.

Lemma PreDequeue_without_handlers_witness :
  dequeueable (PreDequeue (sampleWorld (Ok [])) (sampleOptions true 0) Incoming).1
  = false.
Proof.
  apply PreDequeue_without_handlers; [reflexivity|simpl; lia].
Defined.

(** ** wrapError *)

(** X3. What [wrapError] returns is never itself a deadline error for
    [errors.Is]: a deadline error is replaced before it is wrapped, and any
    other error stays what it was. *)
Theorem wrapError_never_deadline (w : World) (options : Options) (e : error)
    (message : string) :
  errors_Is_DeadlineExceeded (wrapError w options e message) = false.
Proof.
  unfold wrapError. destruct (errors_Is_DeadlineExceeded e) eqn:He; cbn; done.
Qed.

(** ** union *)

Lemma union_eq w (a b : gmap string string) :
  WorldOK w → union w a b = b ∪ a.
Proof.
  intros Hw. apply map_eq. intros k.
  rewrite union_lookup, lookup_union by done.
  by destruct (b !! k), (a !! k).
Qed.

(** X4. [union] is the merge of its arguments in which the second wins: it
    does not depend on the order in which the maps are iterated, has the
    names of both, leaves a map merged with itself or with an empty map
    unchanged, and is associative. *)
Theorem union_is_right_biased_merge (w : World) (a b c : gmap string string) :
  WorldOK w →
  union w a b = b ∪ a
  ∧ (∀ w', WorldOK w' → union w' a b = union w a b)
  ∧ dom (union w a b) = dom a ∪ dom b
  ∧ union w a a = a
  ∧ union w a ∅ = a
  ∧ union w ∅ b = b
  ∧ union w (union w a b) c = union w a (union w b c).
Proof.
  intros Hw.
  split; [by apply union_eq|]. split; [intros w' Hw'; by rewrite !union_eq|].
  rewrite !union_eq by done. split; [rewrite dom_union_L; set_solver|].
  split; [apply (idemp_L _)|]. split; [apply (left_id_L _ _)|].
  split; [apply (right_id_L _ _)|]. by rewrite (assoc_L _).
Qed.

Lemma union_is_right_biased_merge_witness :
  union (sampleWorld (Ok [])) {[ "a" := "1"; "b" := "2" ]} {[ "b" := "3" ]}
  = {[ "b" := "3" ]} ∪ {[ "a" := "1"; "b" := "2" ]}.
Proof.
  exact (proj1 (union_is_right_biased_merge (sampleWorld (Ok []))
                  {[ "a" := "1"; "b" := "2" ]} {[ "b" := "3" ]} ∅
                  (exampleWorld_OK _ _ _))).
Defined.

(** X5. The merged map never holds more entries than the capacity [union]
    allocates for it, the sizes of its arguments added, and holds exactly
    that many when the arguments share no name. *)
Theorem union_size (w : World) (a b : gmap string string) :
  WorldOK w →
  size (union w a b) ≤ size a + size b
  ∧ (dom a ## dom b → size (union w a b) = size a + size b).
Proof.
  intros Hw. rewrite union_eq by done.
  rewrite <- !size_dom, dom_union_L. split.
  - rewrite size_union_alt.
    assert (size (dom a ∖ dom b) ≤ size (dom a)); [|lia].
    apply subseteq_size. set_solver.
  - intros Hdisj. rewrite size_union by done. lia.
Qed.

Lemma union_size_witness :
  size (union (sampleWorld (Ok [])) {[ "a" := "1"; "b" := "2" ]} {[ "b" := "3" ]})
  ≤ 3.
Proof.
  exact (proj1 (union_size (sampleWorld (Ok []))
                  {[ "a" := "1"; "b" := "2" ]} {[ "b" := "3" ]}
                  (exampleWorld_OK _ _ _))).
Defined.

(** ** The calls around the steps *)

Lemma peel_app {A} (a x body tl : list A) :
  x = body ++ tl → a ++ x = (a ++ body) ++ tl.
Proof. intros ->. by rewrite app_assoc. Qed.

Lemma peel_cons {A} (a : A) (x body tl : list A) :
  x = body ++ tl → a :: x = (a :: body) ++ tl.
Proof. by intros ->. Qed.

Lemma peel_done {A} (x : list A) : x = [] ++ x.
Proof. done. Qed.

(** Splits a run into what comes before a given tail, and the tail. *)
Ltac peel := repeat first [apply peel_done | eapply peel_app | eapply peel_cons].

(** X6. Every run of [Handle] ends with the same three deferred calls and
    makes them nowhere else: the logger is flushed, then, if telemetry is
    enabled, one event is sent that carries the very error [Handle] returns,
    then the context is cancelled. *)
Theorem Handle_closing_calls (w : World) (options : Options) (ctx : Context)
    (job : Job) :
  ∃ body,
    (Handle w options ctx job).2
    = body ++ [EvLoggerFlush]
           ++ (if honey_Enabled w
               then [EvHoneySend (jobContext options ctx) job
                                 (Handle w options ctx job).1]
               else [])
           ++ [EvCancel]
    ∧ Forall (λ ev, ¬ closing ev) body.
Proof.
  handle_cases w options ctx job;
    fold (epilogue w options ctx job);
    (eexists; split; [peel|forall_run]).
Qed.

(** X7. Once [prepareWorkspace] has returned a working directory, [Handle]
    removes that directory on every exit path, exactly once, after every
    other call and just before the closing calls; it removes no other
    directory. *)
Theorem workspace_removed_on_every_exit (w : World) (options : Options)
    (ctx : Context) (job : Job) (c : Context) (repositoryName commit : string)
    (workingDirectory : string) :
  EvPrepareWorkspace c repositoryName commit (Ok workingDirectory)
  ∈ (Handle w options ctx job).2 →
  ∃ pre,
    (Handle w options ctx job).2
    = pre ++ [EvRemoveAll workingDirectory]
          ++ epilogue w options ctx job (Handle w options ctx job).1
    ∧ Forall (λ ev, ¬ is_removeAll ev ∧ ¬ closing ev) pre.
Proof.
  intros Hprep. handle_cases w options ctx job.
  1: by elem_of_run Hprep.
  all: assert (workingDirectory0 = workingDirectory) as ->
    by (elem_of_run Hprep; congruence).
  all: eexists; split; [cbn [app]; peel|forall_run].
Qed.

Lemma workspace_removed_on_every_exit_witness :
  ∃ pre,
    (Handle (sampleWorld (Ok [])) (sampleOptions true 2) Incoming escapeJob).2
    = pre ++ [EvRemoveAll "/tmp/workspace-42"]
          ++ epilogue (sampleWorld (Ok [])) (sampleOptions true 2) Incoming escapeJob
               (Handle (sampleWorld (Ok [])) (sampleOptions true 2) Incoming
                       escapeJob).1.
Proof.
  destruct (workspace_removed_on_every_exit
              (sampleWorld (Ok [])) (sampleOptions true 2) Incoming escapeJob
              (jobContext (sampleOptions true 2) Incoming)
              "github.com/sourcegraph/sourcegraph" "deadbeef" "/tmp/workspace-42")
    as (pre & Heq & _).
  - vm_compute. repeat first [apply list_elem_of_here | apply list_elem_of_further].
  - exists pre. exact Heq.
Defined.

(** X8. When [prepareWorkspace] fails, [Handle] does nothing more than its
    closing calls: nothing is written or removed, no UUID is drawn, no name
    registered, no runner created for the job, and the error returned is that
    of [prepareWorkspace] passed through [wrapError] with "failed to prepare
    workspace". *)
Theorem prepare_failure_stops_everything (w : World) (options : Options)
    (ctx : Context) (job : Job) (c : Context) (repositoryName commit : string)
    (e : error) :
  EvPrepareWorkspace c repositoryName commit (Err e)
  ∈ (Handle w options ctx job).2 →
  (Handle w options ctx job).1
  = Some (wrapError w options e "failed to prepare workspace")
  ∧ (Handle w options ctx job).2
    = prologue w options job
      ++ [EvPrepareWorkspace (jobContext options ctx) (RepositoryName job)
                             (Commit job) (Err e)]
      ++ epilogue w options ctx job (Handle w options ctx job).1.
Proof.
  intros Hprep. handle_cases w options ctx job.
  2-7: by elem_of_run Hprep.
  assert (e0 = e) as -> by (elem_of_run Hprep; congruence). by subst err0.
Qed.

Lemma prepare_failure_stops_everything_witness :
  (Handle (mkWorld map_to_list elements ".sourcegraph-executor" (λ _, "5s") false
             (λ _, Ok "/") (λ _ _ _, None) (λ _, Ok (mkUUID "u"))
             (λ _ _, Ok []) (λ _ _ _ _, Err (New "git clone failed"))
             (λ _ _ _, None) (λ _ _ _, None) (λ _ _, None))
          (sampleOptions true 2) Incoming sampleJob).1
  = Some (Wrap (New "git clone failed") "failed to prepare workspace").
Proof.
  refine (proj1 (prepare_failure_stops_everything _ (sampleOptions true 2) Incoming
                   sampleJob (jobContext (sampleOptions true 2) Incoming)
                   "github.com/sourcegraph/sourcegraph" "deadbeef"
                   (New "git clone failed") _)).
  vm_compute. repeat first [apply list_elem_of_here | apply list_elem_of_further].
Defined.

(** X9. [Handle] runs a step or tears the environment down only when [Setup]
    has succeeded: a trace with a [Run] or a [Teardown] call holds the
    successful [Setup] call. *)
Theorem environment_used_only_after_setup (w : World) (options : Options)
    (ctx : Context) (job : Job) (ev : event) :
  ev ∈ (Handle w options ctx job).2 →
  uses_environment ev →
  EvSetup (jobContext options ctx) (imageNames w job) None
  ∈ (Handle w options ctx job).2.
Proof.
  intros Hev Huses. handle_cases w options ctx job.
  1-5: elem_of_run Hev; subst; try done; by destruct ev.
  all: rewrite !elem_of_app; do 4 right; left; unfold settingUp; set_solver.
Qed.

Lemma environment_used_only_after_setup_witness :
  EvSetup (jobContext (sampleOptions true 2) Incoming)
          (imageNames (sampleWorld (Ok [])) sampleJob) None
  ∈ (Handle (sampleWorld (Ok [])) (sampleOptions true 2) Incoming sampleJob).2.
Proof.
  apply (environment_used_only_after_setup _ _ _ _ (EvTeardown Background None)).
  - vm_compute. repeat first [apply list_elem_of_here | apply list_elem_of_further].
  - exact I.
Defined.

(** X10. When [Setup] fails, no step is run and [Teardown] is not called: the
    failed [Setup] is the only call on the environment, and [Handle] returns
    its error passed through [wrapError] with "failed to setup virtual
    machine", not aggregated with anything. *)
Theorem setup_failure_skips_steps_and_teardown (w : World) (options : Options)
    (ctx : Context) (job : Job) (c : Context) (images : list string) (e : error) :
  EvSetup c images (Some e) ∈ (Handle w options ctx job).2 →
  (Handle w options ctx job).1
  = Some (wrapError w options e "failed to setup virtual machine")
  ∧ ∀ ev, ev ∈ (Handle w options ctx job).2 → provisioning ev →
          ev = EvSetup (jobContext options ctx) (imageNames w job) (Some e).
Proof.
  intros Hsetup. handle_cases w options ctx job.
  1-4, 6-7: by elem_of_run Hsetup.
  assert (e0 = e) as -> by (elem_of_run Hsetup; congruence).
  split; [by subst err0|]. intros ev Hev Hprov.
  elem_of_run Hev; subst; try done; by destruct ev.
Qed.

Lemma setup_failure_skips_steps_and_teardown_witness :
  (Handle (mkWorld map_to_list elements ".sourcegraph-executor" (λ _, "5s") false
             (λ _, Ok "/") (λ _ _ _, None) (λ _, Ok (mkUUID "u"))
             (λ _ _, Ok []) (λ _ _ _ _, Ok "/tmp/workspace-42")
             (λ _ _ _, Some (New "ignite run failed")) (λ _ _ _, None) (λ _ _, None))
          (sampleOptions true 2) Incoming sampleJob).1
  = Some (Wrap (New "ignite run failed") "failed to setup virtual machine").
Proof.
  refine (proj1 (setup_failure_skips_steps_and_teardown _ (sampleOptions true 2)
                   Incoming sampleJob (jobContext (sampleOptions true 2) Incoming)
                   ["alpine:3"] (New "ignite run failed") _)).
  vm_compute. repeat first [apply list_elem_of_here | apply list_elem_of_further].
Defined.

(** X11. [Handle] returns nil exactly when [Setup] succeeded, the call of
    every step of the job was made, in declared order and without an error,
    and [Teardown] succeeded. *)
Theorem Handle_succeeds_iff (w : World) (options : Options) (ctx : Context)
    (job : Job) :
  (Handle w options ctx job).1 = None
  ↔ EvSetup (jobContext options ctx) (imageNames w job) None
    ∈ (Handle w options ctx job).2
    ∧ runs (Handle w options ctx job).2
      = (λ sp, (jobContext options ctx, sp, None)) <$> declared_calls job
    ∧ EvTeardown Background None ∈ (Handle w options ctx job).2.
Proof.
  rewrite <- plan_declared. handle_cases w options ctx job.
  1-5: split; [by subst; intros ?|]; intros (Hsetup & _ & _); by elem_of_run Hsetup.
  - apply (steps_trace_runs_0 _ (jobContext options ctx)
             (dockerStepCommand (allScriptNames job))) in H2
      as (k & sp & Hsp & Hdocker); [|done].
    split.
    + subst err0. unfold afterTeardown, inflight. by destruct teardown.
    + intros (_ & Hruns & _). exfalso. revert Hruns. runs_of_run.
      rewrite Hdocker. intros Hruns.
      assert (Hin : (jobContext options ctx, sp, Some e)
                    ∈ (λ sp, (jobContext options ctx, sp, None)) <$> plan job).
      { rewrite <- Hruns. rewrite !elem_of_app. left. right. apply list_elem_of_here. }
      apply list_elem_of_fmap in Hin as (? & [=] & _).
  - apply (steps_trace_runs_0 _ (jobContext options ctx)
             (dockerStepCommand (allScriptNames job))) in H2 as Hdocker; [|done].
    pose proof (steps_trace_runs_0 (cli_events job (jobContext options ctx))
                  (jobContext options ctx) cliStepCommand
                  _ _ _ (λ _ _ _, eq_refl) H3) as Hcli.
    destruct cliFailure as [e|].
    + destruct Hcli as (k & sp & Hsp & Hcli). split.
      * subst err0. unfold afterTeardown, inflight. by destruct teardown.
      * intros (_ & Hruns & _). exfalso. revert Hruns. runs_of_run.
        rewrite Hdocker, Hcli. intros Hruns.
        assert (Hin : (jobContext options ctx, sp, Some e)
                      ∈ (λ sp, (jobContext options ctx, sp, None)) <$> plan job).
        { rewrite <- Hruns. rewrite !elem_of_app. right. left. right.
          apply list_elem_of_here. }
        apply list_elem_of_fmap in Hin as (? & [=] & _).
    + subst err0. unfold afterTeardown, inflight. cbn [fmap option_fmap option_map].
      split.
      * destruct teardown; [done|]. intros _. split; [|split].
        -- rewrite !elem_of_app; do 4 right; left; unfold settingUp; set_solver.
        -- runs_of_run. rewrite Hdocker, Hcli. unfold plan.
           by rewrite fmap_app, ?app_nil_r.
        -- rewrite !elem_of_app. do 7 right. left. apply list_elem_of_here.
      * intros (_ & _ & Htd). elem_of_run Htd. by inversion Htd.
Qed.

(** X12. Every call that takes a context is made under the job's context,
    which carries the deadline, except [Teardown], which is made under
    [context.Background()], which carries none. *)
Theorem calls_under_job_context (w : World) (options : Options) (ctx : Context)
    (job : Job) :
  Forall (λ ev, ∀ c, context_of ev = Some c → c = expected_context options ctx ev)
         (Handle w options ctx job).2
  ∧ deadline_bound (jobContext options ctx) = true
  ∧ deadline_bound Background = false.
Proof.
  split; [|done]. apply Forall_forall. intros ev Hev c Hc.
  handle_cases w options ctx job.
  all: elem_of_run Hev; subst; unfold jobInfo in *;
    cbn [context_of expected_context] in *; try congruence.
  all: destruct ev; cbn in *; try done; congruence.
Qed.

(** X13. When [uuid.NewRandom] fails, [Handle] returns its error as it is,
    without wrapping it, registers no name and makes no call on the
    environment. *)
Theorem uuid_failure_returned_as_is (w : World) (options : Options)
    (ctx : Context) (job : Job) (e : error) :
  EvNewRandom (Err e) ∈ (Handle w options ctx job).2 →
  (Handle w options ctx job).1 = Some e
  ∧ Forall (λ ev, ¬ provisioning ev ∧ ¬ naming ev) (Handle w options ctx job).2.
Proof.
  intros Huuid. handle_cases w options ctx job.
  1-2, 4-7: by elem_of_run Huuid.
  assert (e0 = e) as -> by (elem_of_run Huuid; congruence).
  split; [done|forall_run].
Qed.

Lemma uuid_failure_returned_as_is_witness :
  (Handle (mkWorld map_to_list elements ".sourcegraph-executor" (λ _, "5s") false
             (λ _, Ok "/") (λ _ _ _, None) (λ _, Err DeadlineExceeded)
             (λ _ _, Ok []) (λ _ _ _ _, Ok "/tmp/workspace-42")
             (λ _ _ _, None) (λ _ _ _, None) (λ _ _, None))
          (sampleOptions true 2) Incoming sampleJob).1
  = Some DeadlineExceeded.
Proof.
  refine (proj1 (uuid_failure_returned_as_is _ (sampleOptions true 2)
                   Incoming sampleJob DeadlineExceeded _)).
  vm_compute. repeat first [apply list_elem_of_here | apply list_elem_of_further].
Defined.

(** X14. [Handle] creates two runners at most: the host runner, with no
    directory and empty options, and the runner of the job, in the working
    directory [prepareWorkspace] returned, under the name that was added to
    the set of names in use, with the instance's Firecracker and resource
    options. *)
Theorem runner_created_under_registered_name (w : World) (options : Options)
    (ctx : Context) (job : Job) (dir : string) (runnerOpts : CommandOptions) :
  EvRunnerFactory dir runnerOpts ∈ (Handle w options ctx job).2 →
  (dir = "" ∧ runnerOpts = zeroCommandOptions)
  ∨ (EvPrepareWorkspace (jobContext options ctx) (RepositoryName job) (Commit job)
                        (Ok dir)
     ∈ (Handle w options ctx job).2
     ∧ EvNameSetAdd (ExecutorName runnerOpts) ∈ (Handle w options ctx job).2
     ∧ CmdFirecrackerOptions runnerOpts = OptFirecrackerOptions options
     ∧ CmdResourceOptions runnerOpts = OptResourceOptions options).
Proof.
  intros Hf. handle_cases w options ctx job.
  all: elem_of_run Hf; inversion Hf; subst; try (by left).
  all: right; split; [unfold prepared; rewrite !elem_of_app, !elem_of_cons; tauto|].
  all: split; [|done].
  all: rewrite !elem_of_app; do 2 right; left; unfold named; set_solver.
Qed.

Lemma runner_created_under_registered_name_witness :
  EvNameSetAdd "executor-6ba7b810-9dad-11d1-80b4-00c04fd430c8"
  ∈ (Handle (sampleWorld (Ok [])) (sampleOptions true 2) Incoming sampleJob).2.
Proof.
  destruct (runner_created_under_registered_name
              (sampleWorld (Ok [])) (sampleOptions true 2) Incoming sampleJob
              "/tmp/workspace-42"
              (runnerOptions (sampleOptions true 2)
                 (mkUUID "6ba7b810-9dad-11d1-80b4-00c04fd430c8")))
    as [[Hdir _]|(_ & Hadd & _)].
  - vm_compute. repeat first [apply list_elem_of_here | apply list_elem_of_further].
  - discriminate Hdir.
  - exact Hadd.
Defined.

Lemma wrapError_other w options e stage :
  errors_Is_DeadlineExceeded e = false →
  wrapError w options e stage = Wrap e stage.
Proof. intros He. unfold wrapError. by rewrite He. Qed.

(** X15. When a stage of [Handle] fails with an error that is not a deadline
    error, the error in flight is that error, kept as the cause, wrapped with
    the message of the stage; [Handle] returns it, or, when [Teardown] fails
    as well, the multierror of it followed by the teardown error. *)
Theorem stage_error_wrapped_with_cause (w : World) (options : Options)
    (ctx : Context) (job : Job) (ev : event) (e : error) (stage : string) :
  ev ∈ (Handle w options ctx job).2 →
  stage_of ev = Some (e, stage) →
  errors_Is_DeadlineExceeded e = false →
  (handleReturn w options ctx job).1 = Some (Wrap e stage)
  ∧ (((∀ c teardownErr, EvTeardown c (Some teardownErr) ∉ (Handle w options ctx job).2)
      ∧ (Handle w options ctx job).1 = Some (Wrap e stage))
     ∨ (∃ teardownErr,
          EvTeardown Background (Some teardownErr) ∈ (Handle w options ctx job).2
          ∧ (Handle w options ctx job).1
            = Some (MultiError (Wrap e stage :: multierror_Errors teardownErr)))).
Proof.
  intros Hev Hstage Hother. handle_cases w options ctx job.
  - stage_cases Hev Hstage. subst. cbn in Hstage. inversion Hstage; subst.
    subst err0. rewrite wrapError_other by done. split; [done|]. left.
    split; [|done]. intros c te Htd. by elem_of_run Htd.
  - stage_cases Hev Hstage.
  - stage_cases Hev Hstage.
  - stage_cases Hev Hstage.
  - stage_cases Hev Hstage. subst. cbn in Hstage. inversion Hstage; subst.
    subst err0. rewrite wrapError_other by done. split; [done|]. left.
    split; [|done]. intros c te Htd. by elem_of_run Htd.
  - stage_cases Hev Hstage.
    destruct (docker_stage _ _ _ _ _ _ _ _ _ _ H2 Hev Hstage) as [[= ->] ->].
    subst err0. unfold inflight, afterTeardown. rewrite wrapError_other by done.
    split; [done|]. destruct teardown as [teardownErr|].
    + right. exists teardownErr. split; [|done].
      rewrite !elem_of_app. do 7 right. left. apply list_elem_of_here.
    + left. split; [|done]. intros c te Htd. by elem_of_run Htd.
  - stage_cases Hev Hstage.
    + by destruct (docker_stage _ _ _ _ _ _ _ _ _ _ H2 Hev Hstage).
    + destruct (cli_stage _ _ _ _ _ _ _ _ _ H3 Hev Hstage) as [-> ->].
      subst err0. unfold inflight, afterTeardown. cbn [fmap option_fmap option_map].
      rewrite wrapError_other by done.
      split; [done|]. destruct teardown as [teardownErr|].
      * right. exists teardownErr. split; [|done].
        rewrite !elem_of_app. do 7 right. left. apply list_elem_of_here.
      * left. split; [|done]. intros c te Htd. by elem_of_run Htd.
Qed.

Lemma stage_error_wrapped_with_cause_witness :
  (handleReturn
     (exampleWorld (Ok [])
        (λ spec, if decide (Key spec = "step.src.0")
                 then Some (New "exit status 1") else None) None)
     (sampleOptions true 2) Incoming sampleJob).1
  = Some (Wrap (New "exit status 1") "failed to perform src-cli step").
Proof.
  refine (proj1 (stage_error_wrapped_with_cause _ (sampleOptions true 2) Incoming
                   sampleJob
                   (EvRun (jobContext (sampleOptions true 2) Incoming)
                          (cliStepCommand 0 (mkCliStep ["batch"; "preview"] "" []))
                          (Some (New "exit status 1")))
                   (New "exit status 1") "failed to perform src-cli step" _ _ _)).
  - vm_compute. repeat first [apply list_elem_of_here | apply list_elem_of_further].
  - reflexivity.
  - reflexivity.
Defined.

(** ** The commands of the steps *)

Lemma docker_keys job :
  Key <$> imap (dockerStepCommand (allScriptNames job)) (DockerSteps job)
  = (λ i, "step.docker." +:+ fmt_d (Z.of_nat i)) <$> seq 0 (length (DockerSteps job)).
Proof. by rewrite fmap_imap, <- imap_seq_0. Qed.

Lemma cli_keys job :
  Key <$> imap cliStepCommand (CliSteps job)
  = (λ i, "step.src." +:+ fmt_d (Z.of_nat i)) <$> seq 0 (length (CliSteps job)).
Proof. by rewrite fmap_imap, <- imap_seq_0. Qed.

Lemma numbered_keys_NoDup (prefix : string) n :
  NoDup ((λ i, prefix +:+ fmt_d (Z.of_nat i)) <$> seq 0 n).
Proof.
  apply NoDup_fmap_2_strong; [|apply NoDup_seq].
  intros i j _ _ Heq. apply (inj (String.app prefix)) in Heq.
  apply fmt_d_inj in Heq. lia.
Qed.

(** X16. The keys of the commands of a job - "step.docker.<i>" for its docker
    steps and "step.src.<i>" for its src-cli steps - are pairwise distinct,
    and there is one command per step. *)
Theorem plan_keys_distinct (job : Job) :
  NoDup (Key <$> plan job)
  ∧ length (plan job) = length (DockerSteps job) + length (CliSteps job).
Proof.
  unfold plan. split; [|by rewrite length_app, !length_imap].
  rewrite fmap_app, docker_keys, cli_keys. apply NoDup_app.
  split; [apply numbered_keys_NoDup|]. split; [|apply numbered_keys_NoDup].
  intros key [i [-> _]]%list_elem_of_fmap [j [Heq _]]%list_elem_of_fmap.
  rewrite !append_cons in Heq. by inversion Heq.
Qed.

(** ** The images, once more *)

(** X17. [Setup] is handed at most as many image names as the job has docker
    steps, and none exactly when the job has no docker step. *)
Theorem imageNames_bounded (w : World) (job : Job) :
  WorldOK w →
  length (imageNames w job) ≤ length (DockerSteps job)
  ∧ (imageNames w job = [] ↔ DockerSteps job = []).
Proof.
  intros Hw. split.
  - rewrite <- (length_fmap Image (DockerSteps job)).
    apply submseteq_length, NoDup_submseteq; [by apply imageNames_NoDup|].
    intros image. by rewrite elem_of_imageNames.
  - split.
    + intros Hnil. destruct (DockerSteps job) as [|dockerStep steps] eqn:Hsteps; [done|].
      assert (Hin : Image dockerStep ∈ imageNames w job).
      { rewrite elem_of_imageNames, Hsteps by done. apply list_elem_of_here. }
      rewrite Hnil in Hin. by apply elem_of_nil in Hin.
    + intros Hnil. apply Permutation_nil_r.
      rewrite (imageNames_Permutation w job Hw). unfold imageMap. rewrite Hnil.
      cbn [foldl]. by rewrite elements_empty.
Qed.

Lemma imageNames_bounded_witness :
  length (imageNames (sampleWorld (Ok [])) sampleJob) ≤ 2.
Proof.
  exact (proj1 (imageNames_bounded (sampleWorld (Ok [])) sampleJob
                  (exampleWorld_OK _ _ _))).
Defined.

(** ** Scripts, once more *)

Lemma string_forall_app (P : ascii → bool) (s1 s2 : string) :
  string_forall P (s1 +:+ s2) = string_forall P s1 && string_forall P s2.
Proof.
  induction s1 as [|c s1 IH]; [done|].
  rewrite append_cons. cbn [string_forall]. by rewrite IH, andb_assoc.
Qed.

Lemma string_forall_impl (P Q : ascii → bool) (s : string) :
  (∀ c, P c = true → Q c = true) →
  string_forall P s = true → string_forall Q s = true.
Proof.
  intros HPQ. induction s as [|c s IH]; [done|]. cbn [string_forall].
  intros [Hc Hs]%andb_prop. by rewrite (HPQ c Hc), IH.
Qed.

Lemma decimal_char_no_separator c :
  decimal_char c = true → negb (Ascii.eqb c "/") = true.
Proof.
  destruct (Ascii.eqb c "/") eqn:Hc; [|done].
  apply Ascii.eqb_eq in Hc as ->. by vm_compute.
Qed.

Lemma fmt_d_no_separator z :
  string_forall (λ c, negb (Ascii.eqb c "/")) (fmt_d z) = true.
Proof.
  apply (string_forall_impl decimal_char); [apply decimal_char_no_separator|].
  apply fmt_d_decimal.
Qed.

(** X18. When the commit holds no slash, the name of a script holds none
    either, whatever the repository name: the script is a file directly in
    the scripts directory. *)
Theorem script_name_without_separator (job : Job) (i : Z) :
  string_forall (λ c, negb (Ascii.eqb c "/")) (Commit job) = true →
  string_forall (λ c, negb (Ascii.eqb c "/")) (scriptNameFromJobStep job i) = true.
Proof.
  intros Hcommit. unfold scriptNameFromJobStep.
  rewrite !string_forall_app, Hcommit, ReplaceAll_no_separator.
  by rewrite !fmt_d_no_separator.
Qed.

Lemma script_name_without_separator_witness :
  string_forall (λ c, negb (Ascii.eqb c "/")) (scriptNameFromJobStep sampleJob 1)
  = true.
Proof. apply script_name_without_separator. reflexivity. Defined.

Lemma script_lines_inj (commands commands' : list string) :
  Forall (λ command, single_line command = true) commands →
  Forall (λ command, single_line command = true) commands' →
  script_lines commands = script_lines commands' → commands = commands'.
Proof.
  intros Hc. revert commands'.
  induction Hc as [|c commands Hline _ IH]; intros commands' Hc' Heq;
    destruct Hc' as [|c' commands' Hline' Hc']; cbn [script_lines foldr] in Heq.
  - done.
  - destruct c'; rewrite ?append_cons, ?append_empty in Heq; discriminate.
  - destruct c; rewrite ?append_cons, ?append_empty in Heq; discriminate.
  - unfold newline in Heq. rewrite !(append_cons _ ""), !append_empty in Heq.
    apply (append_separator_inj (λ c, negb (Ascii.eqb c "010")) "010" eq_refl)
      in Heq as [-> Heq]; [|done..].
    f_equal. by apply IH.
Qed.

(** X19. The commands of a step can be read back from its script: two steps
    whose commands hold no line feed and that yield the same script have the
    same commands. *)
Theorem buildScript_determines_commands (step step' : DockerStep) :
  Forall (λ command, single_line command = true) (Commands step) →
  Forall (λ command, single_line command = true) (Commands step') →
  buildScript step = buildScript step' →
  Commands step = Commands step'.
Proof.
  intros Hc Hc'. rewrite !buildScript_content. intros Heq.
  do 3 apply (inj (String.app _)) in Heq. by apply script_lines_inj.
Qed.

Lemma buildScript_determines_commands_witness :
  Commands (mkDockerStep "alpine:3" ["pwd"] "sub" ["A=b"])
  = Commands (mkDockerStep "ubuntu" ["pwd"] "" []).
Proof.
  apply buildScript_determines_commands.
  - by repeat constructor.
  - by repeat constructor.
  - reflexivity.
Defined.

(** ** The telemetry event *)

(** X20. The event of [createHoneyEvent] goes to the dataset "executor" and
    has the six fields of the job and the duration, each with its own value;
    it has the field "error", with the message of the error, exactly when
    there is an error, and no field besides; a duration of less than a
    millisecond, negative or not, counts as zero milliseconds. *)
Theorem createHoneyEvent_fields (Error : error → string) (RecordID : Job → Z)
    (job : Job) (err : option error) (duration : Duration) :
  let event := createHoneyEvent Error RecordID job err duration in
  event.1 = "executor"
  ∧ event.2 !! "error" = (λ e, FieldString (Error e)) <$> err
  ∧ size event.2 = match err with Some _ => 7 | None => 6 end
  ∧ event.2 !! "duration_ms" = Some (FieldInt (Duration_Milliseconds duration))
  ∧ event.2 !! "recordID" = Some (FieldInt (RecordID job))
  ∧ event.2 !! "repositoryName" = Some (FieldString (RepositoryName job))
  ∧ event.2 !! "commit" = Some (FieldString (Commit job))
  ∧ event.2 !! "numDockerSteps" = Some (FieldInt (Z.of_nat (length (DockerSteps job))))
  ∧ event.2 !! "numCliSteps" = Some (FieldInt (Z.of_nat (length (CliSteps job))))
  ∧ ((-1000000 < duration < 1000000)%Z → Duration_Milliseconds duration = 0%Z).
Proof.
  unfold createHoneyEvent. cbn [fst snd].
  split; [done|].
  repeat split; try (destruct err; by vm_compute).
  intros Hd. unfold Duration_Milliseconds. apply Z.quot_small_iff; lia.
Qed.

(** ** The loop over the virtual machine files *)

(** X21. When the loop over the virtual machine files runs to its end, it has
    written every file once, in the order in which it visited them, each
    with its own content, to the path the file resolves to, which begins with
    the working directory; it has made no other call and deferred nothing. *)
Theorem materialization_complete (w : World) (workingDirectory : string)
    (files : list (string * string)) (i : nat) (s s' : frame) :
  forRange (writeVirtualMachineFile w workingDirectory) i files tt s = (Next tt, s') →
  deferreds s' = deferreds s
  ∧ ∃ paths,
      Forall2 (resolves_within workingDirectory) files paths
      ∧ calls s' = calls s ++ zip_with file_written files paths.
Proof.
  revert i s. induction files as [|[relativePath content] files IH]; intros i s Hrun.
  - inversion Hrun; subst. split; [done|]. exists []. split; [constructor|].
    by rewrite app_nil_r.
  - cbn [forRange] in Hrun. unfold bind at 1 in Hrun.
    unfold writeVirtualMachineFile at 1 in Hrun.
    unfold bind at 1 in Hrun. unfold peek at 1 in Hrun.
    destruct (filepath_Abs _ _) as [path|e] eqn:Habs; [|done].
    destruct (strings_HasPrefix path workingDirectory) eqn:Hpre;
      cbn [negb] in Hrun; unfold bind, call, return_, pure in Hrun; [|done].
    destruct (os_WriteFile w (calls s) path content) as [e|] eqn:Hw; [done|].
    apply IH in Hrun as (Hd & paths & Hres & Hc). cbn in Hd, Hc.
    split; [done|]. exists (path :: paths). split.
    + constructor; [|done]. split; [by eexists|done].
    + by rewrite Hc, <- app_assoc.
Qed.

Lemma materialization_complete_witness :
  ∃ paths,
    Forall2 (resolves_within "/tmp/workspace-42") [("a", "x"); ("b/c", "y")] paths.
Proof.
  destruct (materialization_complete (sampleWorld (Ok [])) "/tmp/workspace-42"
              [("a", "x"); ("b/c", "y")] 0 (mkFrame [] [])
              (mkFrame [EvWriteFile "/tmp/workspace-42/a" "x" None;
                        EvWriteFile "/tmp/workspace-42/b/c" "y" None] []))
    as (_ & paths & Hres & _).
  - vm_compute. reflexivity.
  - by exists paths.
Defined.

(** X22. When the loop over the virtual machine files stops, it stops at the
    first file that does not resolve, is refused by the guard or cannot be
    written, and returns an error: the files before it have been written as
    in a complete run, no file after it is touched, and the only other call
    made is the failed write, if the write is what failed, whose error is
    returned as it is. *)
Theorem materialization_stops_at_first_failure (w : World)
    (workingDirectory : string) (files : list (string * string)) (i : nat)
    (s s' : frame) (err : option error) :
  forRange (writeVirtualMachineFile w workingDirectory) i files tt s = (Return err, s') →
  deferreds s' = deferreds s
  ∧ ∃ e before file after paths,
      err = Some e
      ∧ files = before ++ file :: after
      ∧ Forall2 (resolves_within workingDirectory) before paths
      ∧ ((calls s' = calls s ++ zip_with file_written before paths
          ∧ ((∃ getwd, filepath_Abs getwd (filepath_Join [workingDirectory; file.1])
                       = Err e)
             ∨ (e = Errorf "refusing to write outside of working directory"
                ∧ ∃ getwd path,
                    filepath_Abs getwd (filepath_Join [workingDirectory; file.1])
                    = Ok path
                    ∧ strings_HasPrefix path workingDirectory = false)))
         ∨ (∃ path,
              resolves_within workingDirectory file path
              ∧ calls s' = calls s ++ zip_with file_written before paths
                                   ++ [EvWriteFile path file.2 (Some e)])).
Proof.
  revert i s. induction files as [|[relativePath content] files IH]; intros i s Hrun.
  - inversion Hrun.
  - cbn [forRange] in Hrun. unfold bind at 1 in Hrun.
    unfold writeVirtualMachineFile at 1 in Hrun.
    unfold bind at 1 in Hrun. unfold peek at 1 in Hrun.
    destruct (filepath_Abs _ _) as [path|e] eqn:Habs.
    + destruct (strings_HasPrefix path workingDirectory) eqn:Hpre;
        cbn [negb] in Hrun; unfold bind, call, return_, pure in Hrun.
      * destruct (os_WriteFile w (calls s) path content) as [e|] eqn:Hw.
        -- inversion Hrun; subst. split; [done|].
           exists e, [], (relativePath, content), files, [].
           split; [done|]. split; [done|]. split; [constructor|]. right.
           exists path. split; [split; [by eexists|done]|done].
        -- apply IH in Hrun
             as (Hd & e & before & file & after & paths & -> & -> & Hres & Hc).
           cbn in Hd. split; [done|].
           exists e, ((relativePath, content) :: before), file, after, (path :: paths).
           split; [done|]. split; [done|].
           split; [constructor; [split; [by eexists|done]|done]|].
           cbn [calls] in Hc. destruct Hc as [[Hc Hwhy]|(path' & Hres' & Hc)].
           ++ left. split; [|done]. by rewrite Hc, <- app_assoc.
           ++ right. exists path'. split; [done|]. by rewrite Hc, <- app_assoc.
      * inversion Hrun; subst. split; [done|].
        exists (Errorf "refusing to write outside of working directory"), [],
               (relativePath, content), files, [].
        split; [done|]. split; [done|]. split; [constructor|]. left.
        split; [by rewrite app_nil_r|]. right. split; [done|]. by eexists _, path.
    + inversion Hrun; subst. split; [done|].
      exists e, [], (relativePath, content), files, [].
      split; [done|]. split; [done|]. split; [constructor|]. left.
      split; [by rewrite app_nil_r|]. left. by eexists.
Qed.

Lemma materialization_stops_at_first_failure_witness :
  ∃ before file after paths,
    [("a", "x"); ("../escape", "y"); ("b", "z")] = before ++ file :: after
    ∧ Forall2 (resolves_within "/tmp/workspace-42") before paths.
Proof.
  destruct (materialization_stops_at_first_failure
              (sampleWorld (Ok [])) "/tmp/workspace-42"
              [("a", "x"); ("../escape", "y"); ("b", "z")] 0 (mkFrame [] [])
              (mkFrame [EvWriteFile "/tmp/workspace-42/a" "x" None] [])
              (Some (Errorf "refusing to write outside of working directory")))
    as (_ & e & before & file & after & paths & _ & Heq & Hres & _).
  - vm_compute. reflexivity.
  - exists before, file, after, paths. split; [exact Heq|exact Hres].
Defined.

(** ** The guard, as a comparison of strings *)

Lemma append_empty_r (s : string) : s +:+ "" = s.
Proof. induction s as [|x s IH]; [done|]. by rewrite append_cons, IH. Qed.

Lemma append_length (a b : string) :
  String.length (a +:+ b) = String.length a + String.length b.
Proof.
  induction a as [|x a IH]; [done|]. rewrite append_cons. cbn [String.length].
  by rewrite IH.
Qed.

Lemma prefix_append (a c : string) : String.prefix a (a +:+ c) = true.
Proof.
  induction a as [|x a IH]; [by destruct c|]. rewrite append_cons.
  cbn [String.prefix]. by destruct (ascii_dec x x).
Qed.

Lemma append_cancel (a b c : string) : a +:+ b = a +:+ c → b = c.
Proof.
  induction a as [|x a IH]; [done|]. rewrite !append_cons. intros [= H]. by apply IH.
Qed.

(** *** Cleaned paths *)

Lemma path_elements_plain (e : string) :
  string_forall (λ c, negb (is_separator c)) e = true → path_elements e = [e].
Proof.
  induction e as [|c e IH]; [done|]. cbn [string_forall path_elements].
  intros [Hc He]%andb_true_iff. apply negb_true_iff in Hc.
  by rewrite Hc, IH.
Qed.

Lemma path_elements_cons (e rest : string) :
  string_forall (λ c, negb (is_separator c)) e = true →
  path_elements (e +:+ String "/" rest) = e :: path_elements rest.
Proof.
  induction e as [|c e IH]; intros He; [done|].
  rewrite append_cons. cbn [string_forall] in He.
  apply andb_true_iff in He as [Hc He]. apply negb_true_iff in Hc.
  cbn [path_elements]. by rewrite Hc, IH.
Qed.

Lemma path_elements_no_separator (path : string) :
  Forall (λ e, string_forall (λ c, negb (is_separator c)) e = true)
         (path_elements path).
Proof.
  induction path as [|c path IH]; [by repeat constructor|].
  cbn [path_elements]. destruct (is_separator c) eqn:Hc; [by constructor|].
  destruct (path_elements path) as [|e es].
  - repeat constructor. cbn [string_forall]. by rewrite Hc.
  - apply Forall_cons in IH as [He Hes]. constructor; [|done].
    cbn [string_forall]. by rewrite Hc.
Qed.

Lemma path_elements_Join (l : list string) :
  l ≠ [] →
  Forall (λ e, string_forall (λ c, negb (is_separator c)) e = true) l →
  path_elements (strings_Join l "/") = l.
Proof.
  induction l as [|e l IH]; [done|]. intros _ [He Hl]%Forall_cons.
  destruct l as [|e' l].
  - by apply path_elements_plain.
  - unfold strings_Join in *. cbn [String.concat].
    change (String.append ?a ?b) with (a +:+ b).
    rewrite append_cons, append_empty, path_elements_cons by done.
    f_equal. by apply IH.
Qed.

(** What [filepath.Clean] keeps of a rooted path are plain names, and plain
    names are kept as they are: cleaning a rooted path twice changes
    nothing. *)
Lemma clean_element_Forall (P : string → Prop) (out : list string) (elem : string) :
  Forall P out →
  (elem ≠ "" → elem ≠ "." → elem ≠ ".." → P elem) →
  Forall P (clean_element true out elem).
Proof.
  intros Hout He. unfold clean_element. repeat case_decide; try done.
  - destruct out as [|last out]; [done|]. case_decide; [done|].
    by apply Forall_cons in Hout as [_ ?].
  - constructor; auto.
Qed.

Lemma foldl_clean_Forall (P : string → Prop) (elems out : list string) :
  Forall P out →
  Forall (λ e, e ≠ "" → e ≠ "." → e ≠ ".." → P e) elems →
  Forall P (foldl (clean_element true) out elems).
Proof.
  revert out. induction elems as [|e elems IH]; intros out Hout He; [done|].
  apply Forall_cons in He as [He Hes]. cbn [foldl].
  apply IH; [|done]. by apply clean_element_Forall.
Qed.

Lemma foldl_clean_plain (l out : list string) :
  Forall plain_name l → foldl (clean_element true) out l = rev l ++ out.
Proof.
  revert out. induction l as [|e l IH]; intros out Hl; [done|].
  apply Forall_cons in Hl as [(_ & ? & ? & ?) Hl]. cbn [foldl rev].
  rewrite IH, <- app_assoc by done. unfold clean_element.
  by rewrite !decide_False.
Qed.

Lemma filepath_IsAbs_rooted (rest : string) : filepath_IsAbs (String "/" rest) = true.
Proof.
  unfold filepath_IsAbs, strings_HasPrefix. cbn [String.prefix].
  destruct (ascii_dec "/" "/"); [|done]. by destruct rest.
Qed.

Lemma path_names_plain (path : string) :
  filepath_IsAbs path = true → Forall plain_name (path_names path).
Proof.
  intros Habs. unfold path_names. unfold filepath_IsAbs in Habs. rewrite Habs.
  apply Forall_rev, foldl_clean_Forall; [done|].
  eapply Forall_impl; [apply path_elements_no_separator|]. by intros e He.
Qed.

Lemma filepath_Clean_rooted (path : string) :
  filepath_IsAbs path = true →
  filepath_Clean path = String "/" (strings_Join (path_names path) "/").
Proof.
  intros Habs. unfold filepath_Clean, path_names. unfold filepath_IsAbs in Habs.
  rewrite Habs. rewrite decide_False; [done|]. by intros ->.
Qed.

Lemma path_names_Clean (path : string) :
  filepath_IsAbs path = true → path_names (filepath_Clean path) = path_names path.
Proof.
  intros Habs. rewrite (filepath_Clean_rooted path Habs).
  pose proof (path_names_plain path Habs) as Hplain.
  set (l := path_names path) in *. unfold path_names at 1.
  assert (strings_HasPrefix (String "/" (strings_Join l "/")) "/" = true) as ->
    by apply filepath_IsAbs_rooted.
  cbn [path_elements]. change (is_separator "/") with true. cbn [foldl].
  change (clean_element true [] "") with (@nil string).
  destruct (decide (l = [])) as [->|Hne]; [done|].
  rewrite path_elements_Join, foldl_clean_plain, app_nil_r, rev_involutive; try done.
  eapply Forall_impl; [exact Hplain|]. by intros e [? _].
Qed.

Lemma filepath_Clean_idempotent (path : string) :
  filepath_IsAbs path = true →
  filepath_Clean (filepath_Clean path) = filepath_Clean path.
Proof.
  intros Habs.
  assert (filepath_IsAbs (filepath_Clean path) = true) as Habs'
    by (rewrite (filepath_Clean_rooted path Habs); apply filepath_IsAbs_rooted).
  by rewrite (filepath_Clean_rooted _ Habs'), path_names_Clean,
       <- filepath_Clean_rooted.
Qed.

Lemma names_below_Some (dir path below : list string) :
  names_below dir path = Some below → path = dir ++ below.
Proof.
  revert path. induction dir as [|d dir IH]; intros [|p path]; cbn; try done.
  - by intros [= ->].
  - by intros [= ->].
  - case_decide; [|done]. subst. intros ?%IH. by subst.
Qed.

Lemma strings_Join_app (a b : list string) :
  a ≠ [] → b ≠ [] →
  strings_Join (a ++ b) "/" = strings_Join a "/" +:+ String "/" (strings_Join b "/").
Proof.
  intros Ha Hb. induction a as [|x a IH]; [done|]. unfold strings_Join in *.
  destruct a as [|y a].
  - destruct b; [done|]. cbn [app String.concat]. done.
  - cbn [app String.concat] in *. change (String.append ?a ?b) with (a +:+ b) in *.
    rewrite IH by done. by rewrite !string_app_assoc, !append_cons, !append_empty.
Qed.

(** *** Within and the guard *)

Lemma within_names (dir path : string) :
  within dir path = true →
  filepath_IsAbs dir = filepath_IsAbs path
  ∧ ∃ below, path_names path = path_names dir ++ below.
Proof.
  unfold within. intros [Habs Hbelow]%andb_true_iff.
  apply bool_decide_eq_true in Habs. split; [done|].
  destruct (names_below _ _) as [below|] eqn:Hnames; [|done].
  exists below. by apply names_below_Some.
Qed.

(** The guard refuses no path that lies within the working directory. *)
Lemma within_HasPrefix (dir path : string) :
  filepath_IsAbs dir = true →
  filepath_Clean dir = dir →
  filepath_Clean path = path →
  within dir path = true →
  strings_HasPrefix path dir = true.
Proof.
  intros Habs Hdir Hpath (Hsame & below & Hnames)%within_names.
  rewrite Habs in Hsame. symmetry in Hsame.
  rewrite (filepath_Clean_rooted dir Habs) in Hdir.
  rewrite (filepath_Clean_rooted path Hsame), Hnames in Hpath.
  rewrite <- Hdir, <- Hpath. unfold strings_HasPrefix.
  destruct (path_names dir) as [|d names].
  { cbn. by destruct (String.concat _ _). }
  destruct below as [|b below].
  - rewrite app_nil_r. rewrite <- (append_empty_r (String "/" _)) at 2.
    apply prefix_append.
  - rewrite strings_Join_app by done. rewrite <- append_cons. apply prefix_append.
Qed.

(** A path that continues the name of the directory lies outside it. *)
Lemma name_continued_outside (dir : string) (c : ascii) (rest : string) :
  filepath_IsAbs dir = true →
  filepath_Clean dir = dir →
  dir ≠ "/" →
  c ≠ "/"%char →
  filepath_Clean (dir +:+ String c rest) = dir +:+ String c rest →
  within dir (dir +:+ String c rest) = false.
Proof.
  intros Habs Hdir Hroot Hc Hpath.
  destruct (within dir _) eqn:Hin; [exfalso|done].
  apply within_names in Hin as (Hsame & below & Hnames).
  rewrite Habs in Hsame. symmetry in Hsame.
  rewrite (filepath_Clean_rooted _ Hsame), Hnames in Hpath.
  rewrite (filepath_Clean_rooted dir Habs) in Hdir.
  revert Hdir Hpath. destruct (path_names dir) as [|d names]; intros Hdir Hpath;
    [by destruct Hroot; rewrite <- Hdir|].
  rewrite <- Hdir in Hpath. destruct below as [|b below].
  - rewrite app_nil_r in Hpath. apply (f_equal String.length) in Hpath.
    rewrite append_length in Hpath. cbn [String.length] in Hpath. lia.
  - rewrite (strings_Join_app (d :: names) (b :: below)) in Hpath by done.
    rewrite <- append_cons in Hpath. apply append_cancel in Hpath.
    injection Hpath as Hsep _. by destruct Hc.
Qed.

Lemma filepath_Join_rooted (dir relativePath : string) :
  filepath_IsAbs dir = true →
  filepath_IsAbs (filepath_Join [dir; relativePath]) = true
  ∧ filepath_Clean (filepath_Join [dir; relativePath])
    = filepath_Join [dir; relativePath].
Proof.
  intros Habs. cbn [filepath_Join]. rewrite decide_False by by intros ->.
  assert (filepath_IsAbs (strings_Join [dir; relativePath] "/") = true) as Hx.
  { destruct dir as [|a dir]; [done|]. unfold strings_Join. cbn [String.concat].
    unfold filepath_IsAbs, strings_HasPrefix in *. rewrite append_cons.
    cbn [String.prefix] in *. destruct (ascii_dec "/" a); [|done].
    by destruct (dir +:+ _). }
  split; [|by apply filepath_Clean_idempotent].
  rewrite (filepath_Clean_rooted _ Hx). apply filepath_IsAbs_rooted.
Qed.

(** X23. The guard of the loop over the virtual machine files compares
    strings, not paths. For a working directory that is a cleaned absolute
    path, a file resolves to the joined path whatever [os.Getwd] answers, and
    the turn of the loop for it hands that path to [os.WriteFile] whenever
    the path lies within the working directory: the guard refuses nothing it
    should let through. It hands it to [os.WriteFile] just as well when the
    path continues the name of the working directory with a character other
    than the separator, although that path lies outside the working
    directory. *)
Theorem guard_compares_strings (w : World)
    (workingDirectory relativePath content : string) (i : nat) (s : frame) :
  filepath_IsAbs workingDirectory = true →
  filepath_Clean workingDirectory = workingDirectory →
  let path := filepath_Join [workingDirectory; relativePath] in
  let turn :=
    writeVirtualMachineFile w workingDirectory i (relativePath, content) tt s in
  let written :=
    calls turn.2
    = calls s ++ [EvWriteFile path content (os_WriteFile w (calls s) path content)] in
  (within workingDirectory path = true → written)
  ∧ (∀ c rest, workingDirectory ≠ "/" →
               c ≠ "/"%char →
               path = workingDirectory +:+ String c rest →
               within workingDirectory path = false ∧ written).
Proof.
  intros Habs Hdir path turn written.
  destruct (filepath_Join_rooted workingDirectory relativePath Habs)
    as [Hrooted Hclean].
  fold path in Hrooted, Hclean.
  assert (strings_HasPrefix path workingDirectory = true → written) as Hwritten.
  { intros Hpre. unfold written, turn, writeVirtualMachineFile, bind, peek.
    fold path. unfold filepath_Abs. rewrite Hrooted, Hclean, Hpre. cbn [negb].
    unfold call. by destruct (os_WriteFile w (calls s) path content). }
  split.
  - intros Hin. by apply Hwritten, within_HasPrefix.
  - intros c rest Hroot Hc Hpath. split.
    + rewrite Hpath. apply name_continued_outside; try done. by rewrite <- Hpath.
    + apply Hwritten. rewrite Hpath. apply prefix_append.
Qed.

Lemma guard_compares_strings_witness :
  within "/tmp/workspace-42" (filepath_Join ["/tmp/workspace-42"; "../workspace-42-evil/x"])
  = false.
Proof.
  refine (proj1 (proj2 (guard_compares_strings (sampleWorld (Ok []))
                          "/tmp/workspace-42" "../workspace-42-evil/x" "y" 0
                          (mkFrame [] []) _ _) "-"%char "evil/x" _ _ _)).
  - reflexivity.
  - vm_compute. reflexivity.
  - discriminate.
  - discriminate.
  - vm_compute. reflexivity.
Defined.
